(** * omnichat: the session reconciliation core

    A shallow embedding of the conversation sidebar ([components/Sidebar.tsx]),
    the page that owns the active session ([app/page.tsx]) and the two log
    routes ([app/api/logs/route.ts], [app/api/logs/delete/route.ts]), with the
    properties of the design document checked against them.

    Conventions.
    - A JavaScript string is a [string]; [a > b] on strings is the
      lexicographic order on code units ([String.ltb]).
    - An optional or nullable field ([sessionId?: string | null]) is an
      [option]; [None] stands for both [undefined] and [null].
    - [new Date(s).getTime()] is a parameter [getTime : string -> option Z]
      of the development ([None] is [NaN]).
    - [Array.prototype.sort] is a stable sort driven by the sign of the
      comparator; a [NaN] result counts as [+0]. *)

From Stdlib Require Import ZArith Lia Ascii String.
From stdpp Require Import base tactics option list sorting strings pretty gmap.

Open Scope string_scope.
Open Scope list_scope.
Open Scope nat_scope.

#[local] Set Warnings "-clear-no-such-hyp,-register-all".

(** ** JavaScript primitives *)

Module JS.

(** [if (s)] on a string: only the empty string is falsy. *)
Definition truthy (s : string) : bool := negb (String.eqb s "").

(** [if (v)] on a [string | null | undefined]. *)
Definition truthy_opt (v : option string) : bool :=
  match v with
  | Some s => truthy s
  | None => false
  end.

(** [a || b] on two optional strings. *)
Definition or_else (a b : option string) : option string :=
  if truthy_opt a then a else b.

Section Sort.
Context {A : Type}.

(** [after x y] holds when the comparator asks for [x] to be placed
    after [y] (its result on [(x, y)] is positive). *)
Variable after : A -> A -> bool.

Fixpoint insert_sorted (x : A) (l : list A) : list A :=
  match l with
  | [] => [x]
  | y :: l' => if after x y then y :: insert_sorted x l' else x :: y :: l'
  end.

(** A stable sort: insertion from the right keeps equal elements in
    their input order. *)
Definition stable_sort (l : list A) : list A := foldr insert_sorted [] l.
End Sort.

(** The sign test [Array.prototype.sort] applies to a comparator result;
    [None] is [NaN], which the sort reads as [+0]. *)
Definition positive (v : option Z) : bool :=
  match v with
  | Some z => (0 <? z)%Z
  | None => false
  end.

(** [arr.sort(comparator)] (on a copy). For a comparator that is not
    consistent (a mix of parseable and unparseable dates) ECMAScript leaves
    the order to the engine; this is then the order of a stable insertion
    sort. *)
Definition Array_sort {A} (comparator : A -> A -> option Z) (arr : list A) : list A :=
  stable_sort (fun a b => positive (comparator a b)) arr.

(** [arr.forEach((x, index) => ...)] threading a state, from index [i]. *)
Fixpoint forEach_from {A St : Type} (f : St -> A -> nat -> St) (i : nat) (arr : list A) (s : St) : St :=
  match arr with
  | [] => s
  | x :: arr' => forEach_from f (S i) arr' (f s x i)
  end.

Definition forEach {A St : Type} (f : St -> A -> nat -> St) (arr : list A) (s : St) : St :=
  forEach_from f 0 arr s.

(** [s.trim()], with the ASCII white space (tab, line feed, vertical tab,
    form feed, carriage return, space) as the characters removed. *)
Fixpoint trimStart (s : string) : string :=
  match s with
  | String c s' => if Ascii.is_space c then trimStart s' else s
  | EmptyString => EmptyString
  end.

Definition trim (s : string) : string :=
  String.rev (trimStart (String.rev (trimStart s))).

(** [arr.includes(x)] on strings. *)
Definition includes (arr : list string) (x : string) : bool :=
  existsb (String.eqb x) arr.

(** The subtraction of two time values: [NaN] as soon as one is. *)
Definition minus (a b : option Z) : option Z :=
  match a, b with
  | Some x, Some y => Some (x - y)%Z
  | _, _ => None
  end.

End JS.

(** ** Lists of strings *)

Module Util.

(** The larger of two strings in lexicographic order. *)
Definition str_max (m c : string) : string := if String.ltb m c then c else m.

(** The largest string of a list (the empty string for the empty list). *)
Definition maximum (l : list string) : string := foldl str_max "" l.

(** The distinct elements of a list, each at its first occurrence. *)
Fixpoint distinct `{EqDecision A} (l : list A) : list A :=
  match l with
  | [] => []
  | x :: l' => x :: List.filter (fun y => bool_decide (y ≠ x)) (distinct l')
  end.

End Util.

(** ** The log record and the conversation summary *)

Record LogItem := mkLog {
  sessionId : option string;
  question : string;
  answer : string;
  model : string;
  createdAt : string;
}.

Global Instance LogItem_eq_dec : EqDecision LogItem.
Proof. solve_decision. Defined.

(** One element of [conversations]. *)
Record Conversation := mkConv {
  key : string;
  convSessionId : option string;
  title : string;
  date : string;
  convModel : string;
  msgCount : nat;
  allLogs : list LogItem;
}.

Global Instance Conversation_eq_dec : EqDecision Conversation.
Proof. solve_decision. Defined.

(** ** The grouping pass of the sidebar *)

Module Sidebar.

(** One value of the [grouped] map. *)
Record Group := mkGroup {
  logs : list LogItem;
  firstQuestion : string;
  latestDate : string;
}.

(** [Map<string, Group>]: iteration follows insertion order, so the map is
    an association list with at most one entry per key. *)
Definition GroupMap := list (string * Group).

Fixpoint Map_get (m : GroupMap) (k : string) : option Group :=
  match m with
  | [] => None
  | (k', g) :: m' => if String.eqb k' k then Some g else Map_get m' k
  end.

(** Mutating the object stored under [k] in place. *)
Fixpoint Map_modify (m : GroupMap) (k : string) (f : Group -> Group) : GroupMap :=
  match m with
  | [] => []
  | (k', g) :: m' =>
      if String.eqb k' k then (k', f g) :: m' else (k', g) :: Map_modify m' k f
  end.

(** [grouped.set(k, g)] for a key that [Map_get] did not find. *)
Definition Map_set_new (m : GroupMap) (k : string) (g : Group) : GroupMap :=
  m ++ [(k, g)].

(** [existing.logs.push(log)] followed by the update of [latestDate]. *)
Definition push_log (log : LogItem) (existing : Group) : Group :=
  let pushed := mkGroup (logs existing ++ [log]) (firstQuestion existing) (latestDate existing) in
  if negb (JS.truthy (latestDate pushed)) || String.ltb (latestDate pushed) (createdAt log)
  then mkGroup (logs pushed) (firstQuestion pushed) (createdAt log)
  else pushed.

(** The two accumulators of the pass: [grouped] and [ungrouped]. *)
Definition Buckets : Type := GroupMap * list (LogItem * nat).

(** The body of [historyItems.forEach((log, index) => ...)]. *)
Definition visit (acc : Buckets) (log : LogItem) (index : nat) : Buckets :=
  let '(grouped, ungrouped) := acc in
  match sessionId log with
  | Some sid =>
      if JS.truthy sid then
        match Map_get grouped sid with
        | Some _ => (Map_modify grouped sid (push_log log), ungrouped)
        | None =>
            (Map_set_new grouped sid (mkGroup [log] (question log) (createdAt log)),
             ungrouped)
        end
      else (grouped, ungrouped ++ [(log, index)])
  | None => (grouped, ungrouped ++ [(log, index)])
  end.

Section WithClock.
(** [new Date(s).getTime()]. *)
Variable getTime : string -> option Z.

(** [(a, b) => new Date(a.createdAt).getTime() - new Date(b.createdAt).getTime()] *)
Definition byCreatedAt (a b : LogItem) : option Z :=
  JS.minus (getTime (createdAt a)) (getTime (createdAt b)).

(** [(a, b) => new Date(b.date).getTime() - new Date(a.date).getTime()] *)
Definition byDateDesc (a b : Conversation) : option Z :=
  JS.minus (getTime (date b)) (getTime (date a)).

(** The body of [grouped.forEach((value, sessionId) => ...)]. [sorted[0]]
    of an empty array is [undefined] and reading its [question] throws:
    that is [None]. *)
Definition grouped_entry (entry : string * Group) : option Conversation :=
  let '(sid, value) := entry in
  let sorted := JS.Array_sort byCreatedAt (logs value) in
  first ← head sorted;
  final ← last sorted;
  Some (mkConv sid (Some sid) (question first) (latestDate value) (model final)
               (length (logs value)) sorted).

(** The body of [ungrouped.forEach(({ log, index }) => ...)]. *)
Definition legacy_entry (entry : LogItem * nat) : Conversation :=
  let '(log, index) := entry in
  mkConv ("legacy-" +:+ pretty index) None (question log) (createdAt log) (model log)
         1 [log].

(** [conversations], as computed on every render from [historyItems]. *)
Definition conversations (historyItems : list LogItem) : option (list Conversation) :=
  let '(grouped, ungrouped) := JS.forEach visit historyItems ([], []) in
  result ← mapM grouped_entry grouped;
  Some (JS.Array_sort byDateDesc (result ++ map legacy_entry ungrouped)).
End WithClock.

End Sidebar.

(** ** The grouping algorithm of the design document (section 4.1)

    Written from the document's four steps, for comparison with
    [Sidebar.conversations]. [sessionOf] says which session a record
    belongs to, if any; the document reads it off the [sessionId] field.
    Timestamps are sortable strings: the greatest is taken in the order
    of strings, and the two sorts ask the comparator which is later. *)

Module GroupingSpec.
Import Util.

Section Spec.
(** The timestamp comparator the algorithm is given. *)
Variable getTime : string -> option Z.
Variable sessionOf : LogItem -> option string.

(** [s] is a later time than [s']; a string that is no date is neither
    later nor earlier than anything. *)
Definition later (s s' : string) : bool :=
  match getTime s, getTime s' with
  | Some x, Some y => (y <? x)%Z
  | _, _ => false
  end.

Definition in_session (sid : string) (r : LogItem) : bool :=
  match sessionOf r with
  | Some s => String.eqb s sid
  | None => false
  end.

Definition is_legacy (r : LogItem) : bool :=
  match sessionOf r with
  | Some _ => false
  | None => true
  end.

(** Step 2: the distinct session identifiers. *)
Definition session_ids (records : list LogItem) : list string :=
  distinct (omap sessionOf records).

Definition max_createdAt (records : list LogItem) : string :=
  maximum (createdAt <$> records).

(** Step 2: the summary of one session. *)
Definition session_summary (records : list LogItem) (sid : string) : Conversation :=
  let members := List.filter (in_session sid) records in
  let ordered := JS.stable_sort (fun a b => later (createdAt a) (createdAt b)) members in
  {| key := sid;
     convSessionId := Some sid;
     title := from_option question "" (head ordered);
     date := max_createdAt members;
     convModel := from_option model "" (last ordered);
     msgCount := length members;
     allLogs := ordered |}.

(** Step 3: one singleton summary per legacy record, keyed by the
    record's position in the fetch. *)
Definition legacy_summary (index : nat) (r : LogItem) : Conversation :=
  {| key := "legacy-" +:+ pretty index;
     convSessionId := None;
     title := question r;
     date := createdAt r;
     convModel := model r;
     msgCount := 1;
     allLogs := [r] |}.

Fixpoint legacy_summaries (index : nat) (records : list LogItem) : list Conversation :=
  match records with
  | [] => []
  | r :: rest =>
      (if is_legacy r then [legacy_summary index r] else [])
        ++ legacy_summaries (S index) rest
  end.

(** Step 4: grouped summaries, then legacy ones, stably sorted by
    [latestTimestamp], latest first. *)
Definition grouping (records : list LogItem) : list Conversation :=
  JS.stable_sort (fun a b => later (date b) (date a))
    (map (session_summary records) (session_ids records)
       ++ legacy_summaries 0 records).
End Spec.

(** The reading of the code: a record is in a session when its
    [sessionId] is a non-empty string. *)
Definition nonempty_session (r : LogItem) : option string :=
  match sessionId r with
  | Some s => if JS.truthy s then Some s else None
  | None => None
  end.

End GroupingSpec.

(** ** A clock for closed examples

    [Date.prototype.toISOString] writes [YYYY-MM-DDTHH:mm:ss.sssZ]; this
    reads that one format back to milliseconds since the epoch and
    reports every other string as unparseable. *)

Module IsoClock.

Definition digit (c : ascii) : option Z := Z.of_nat <$> Ascii.is_nat c.

Fixpoint number (acc : Z) (cs : list ascii) : option Z :=
  match cs with
  | [] => Some acc
  | c :: cs' => d ← digit c; number (10 * acc + d) cs'
  end.

Definition leap (y : Z) : bool :=
  ((y mod 4 =? 0) && negb (y mod 100 =? 0) || (y mod 400 =? 0))%Z.

Definition days_in_month (y m : Z) : Z :=
  if (m =? 2)%Z then (if leap y then 29 else 28)
  else if ((m =? 4) || (m =? 6) || (m =? 9) || (m =? 11))%Z then 30 else 31.

(** Days since 1970-01-01 of a civil date. *)
Definition days_from_civil (y m d : Z) : Z :=
  let y' := (if m <=? 2 then y - 1 else y)%Z in
  let era := (y' / 400)%Z in
  let yoe := (y' - era * 400)%Z in
  let mp := (if m <=? 2 then m + 9 else m - 3)%Z in
  let doy := ((153 * mp + 2) / 5 + d - 1)%Z in
  let doe := (yoe * 365 + yoe / 4 - yoe / 100 + doy)%Z in
  (era * 146097 + doe - 719468)%Z.

Definition getTime (s : string) : option Z :=
  let cs := list_ascii_of_string s in
  if negb (length cs =? 24)%nat then None
  else if negb (forallb (fun '(i, c) => bool_decide (cs !! i = Some c))
                  [(4%nat, "-"%char); (7%nat, "-"%char); (10%nat, "T"%char); (13%nat, ":"%char);
                   (16%nat, ":"%char); (19%nat, "."%char); (23%nat, "Z"%char)])
  then None
  else
    y ← number 0 (take 4 cs);
    m ← number 0 (take 2 (drop 5 cs));
    d ← number 0 (take 2 (drop 8 cs));
    h ← number 0 (take 2 (drop 11 cs));
    mi ← number 0 (take 2 (drop 14 cs));
    sec ← number 0 (take 2 (drop 17 cs));
    ms ← number 0 (take 3 (drop 20 cs));
    if ((1 <=? m) && (m <=? 12) && (1 <=? d) && (d <=? days_in_month y m)
        && (h <? 24) && (mi <? 60) && (sec <? 60))%Z
    then Some ((((days_from_civil y m d * 24 + h) * 60 + mi) * 60 + sec) * 1000 + ms)%Z
    else None.

End IsoClock.

(** ** The document store

    The collection [logs] of the database, with the operations the two
    routes use. A document is a [LogItem] (the [_id] field is projected
    away by every query); a field that is [null] and a field that is
    missing are both [None]. Where the store leaves an order open (the
    output of [$group], ties under [sort]) the collection's own order
    decides. *)

Module Mongo.

Definition Collection := list LogItem.

(** A value of a parsed request body. *)
Inductive JSON :=
  | JNull
  | JBool (b : bool)
  | JNumber (n : Z)
  | JString (s : string)
  | JArray (items : list JSON)
  | JObject (fields : list (string * JSON)).

(** [{ field: { $in: values } }] on a string field: a string matches
    itself, [null] matches a field that is null or missing. *)
Definition matches_in (values : list JSON) (field : option string) : bool :=
  existsb (fun v =>
             match v, field with
             | JString s, Some s' => String.eqb s s'
             | JNull, None => true
             | _, _ => false
             end) values.

(** [{ field: null }] and [{ field: { $exists: true } }]. *)
Definition is_null (field : option string) : bool := bool_decide (field = None).
Definition exists_ (field : option string) : bool := bool_decide (field ≠ None).

(** [collection.deleteMany(filter)]: the [deletedCount] and what is left. *)
Definition deleteMany (filter : LogItem -> bool) (c : Collection) : nat * Collection :=
  (length (List.filter filter c), List.filter (fun d => negb (filter d)) c).

(** [.sort({ field: -1 })] on a string field. *)
Definition sort_desc {A} (field : A -> string) (l : list A) : list A :=
  JS.stable_sort (fun a b => String.ltb (field a) (field b)) l.

(** [.find(filter).sort({ createdAt: -1 }).limit(n)] *)
Definition find_sorted (filter : LogItem -> bool) (limit : option nat) (c : Collection) : list LogItem :=
  let found := sort_desc createdAt (List.filter filter c) in
  match limit with
  | Some n => take n found
  | None => found
  end.

(** One output document of the [$group] stage. *)
Record SessionGroup := mkSessionGroup {
  _id : option string;
  latestAt : string;
}.

(** [{ $group: { _id: "$sessionId", latestAt: { $max: "$createdAt" } } }] *)
Definition group_by_session (c : Collection) : list SessionGroup :=
  map (fun k =>
         mkSessionGroup k
           (Util.maximum
              (createdAt <$> List.filter (fun d => bool_decide (sessionId d = k)) c)))
      (Util.distinct (map sessionId c)).

End Mongo.

(** ** The routes *)

Module Routes.
Import Mongo.

Inductive Response (A : Type) :=
  | Json (body : A)
  | Failed (status : nat).
Arguments Json {A} body.
Arguments Failed {A} status.

(** What a request finds around it: the connection string of the
    settings, the one of the environment, and whether the store answers. *)
Record Env := mkEnv {
  settingsMongoUri : option string;
  MONGO_URI : option string;
  reachable : bool;
}.

(** [dbSettings.mongoUri || process.env.MONGO_URI] *)
Definition mongoUri (env : Env) : option string :=
  JS.or_else (settingsMongoUri env) (MONGO_URI env).

Section Logs.
(** The store's engine for [{ $regex: pattern, $options: "i" }]: the
    matcher of a pattern, [None] for a pattern that is not a regular
    expression (the query then throws). *)
Variable regex_i : string -> option (string -> bool).

(** [search && typeof search === "string" ? search.trim() : ""] *)
Definition searchTerm (search : option JSON) : string :=
  match search with
  | Some (JString s) => JS.trim s
  | _ => ""
  end.

(** The search branch of [POST /api/logs]. *)
Definition search_logs (term : string) (c : Collection) : option (list LogItem) :=
  m ← regex_i term;
  Some (find_sorted (fun d => m (question d) || m (answer d)) (Some 200) c).

(** Step 1 of the history branch: the 50 groups that were active last. *)
Definition recentSessions (c : Collection) : list SessionGroup :=
  take 50 (sort_desc latestAt (group_by_session c)).

(** Step 2 of the history branch. *)
Definition history_logs (c : Collection) : list LogItem :=
  let sessionIds := omap _id (recentSessions c) in
  let hasNullSessions := existsb (fun s => bool_decide (_id s = None)) (recentSessions c) in
  let in_ids d := matches_in (map JString sessionIds) (sessionId d) in
  let filter d :=
    if hasNullSessions
    then in_ids d || is_null (sessionId d) || negb (exists_ (sessionId d))
    else in_ids d in
  find_sorted filter None c.

(** The body of [POST /api/logs] once connected. *)
Definition fetch_logs (search : option JSON) (c : Collection) : option (list LogItem) :=
  let term := searchTerm search in
  if JS.truthy term then search_logs term c else Some (history_logs c).

Definition POST_logs (env : Env) (search : option JSON) (c : Collection) : Response (list LogItem) :=
  if negb (JS.truthy_opt (mongoUri env)) then Failed 400
  else if negb (reachable env) then Failed 500
  else match fetch_logs search c with
       | Some logs => Json logs
       | None => Failed 500
       end.
End Logs.

(** [Array.isArray(v)], with the elements when it holds. *)
Definition isArray (v : option JSON) : option (list JSON) :=
  match v with
  | Some (JArray items) => Some items
  | _ => None
  end.

(** The two branches of [POST /api/logs/delete]. *)
Definition delete_logs (sessionIds : option JSON) (c : Collection) : nat * Collection :=
  match isArray sessionIds with
  | Some ids =>
      if (0 <? length ids)%nat
      then deleteMany (fun d => matches_in ids (sessionId d)) c
      else deleteMany (fun _ => true) c
  | None => deleteMany (fun _ => true) c
  end.


(** The body [callDelete] sends: [sessionIds] is left out for [null]. *)
Definition delete_body (sessionIds : option (list string)) : option JSON :=
  JArray ∘ map JString <$> sessionIds.

End Routes.

(** ** Substring search, as the design document words it (section 4.4) *)

Module SearchSpec.



(** [term] occurs in [s]. *)
Fixpoint contains (term s : string) : bool :=
  String.prefix term s
  || match s with
     | String _ s' => contains term s'
     | EmptyString => false
     end.







End SearchSpec.

(** ** The page and its sidebar as an event-driven machine

    One state for the React state of [HomePage] and [Sidebar] and for the
    requests that were sent and not yet answered; one event per user
    action, timer or answer. An event handler runs to completion and the
    components render again before the next event is taken, so a control
    that the new state disables or hides takes no further click. The
    settings in [localStorage] are taken to parse; [HistoryLoaded] is the
    answer to the history request of the current render. *)

Module App.

Inductive Tab := history | search.

Inductive Role := user | assistant.

(** A call of [callDelete] waiting for its answer. The continuation after
    [await fetch(...)] belongs to the render in which the click was
    handled: its [onDeleteChats] is the [handleDeleteChats] of that
    render, which reads the [sessionId] of that render. *)
Record DeleteCall := mkDeleteCall {
  target : option (list string);
  capturedSessionId : option string;
}.

Record State := mkState {
  (* HomePage *)
  activeSessionId : option string;
  messages : list (Role * string);
  historyVersion : nat;
  (* Sidebar: history and search *)
  tab : Tab;
  logs : list LogItem;
  query : string;
  searchResults : list LogItem;
  searching : bool;
  searchError : option string;
  hasSearched : bool;
  debounce : option string;
  (* Sidebar: selection *)
  selectionMode : bool;
  selectedKeys : gset string;
  deleting : bool;
  (* requests in flight, oldest first *)
  searchCalls : list string;
  deleteCalls : list DeleteCall;
}.

(** The state of a freshly mounted page. *)
Definition initial : State :=
  {| activeSessionId := None; messages := []; historyVersion := 0;
     tab := history; logs := []; query := ""; searchResults := [];
     searching := false; searchError := None; hasSearched := false;
     debounce := None;
     selectionMode := false; selectedKeys := ∅; deleting := false;
     searchCalls := []; deleteCalls := [] |}.

(** *** State updates *)

Definition set_session (sid : option string) (msgs : list (Role * string))
    (st : State) : State :=
  mkState sid msgs (historyVersion st) (tab st) (logs st) (query st) (searchResults st)
    (searching st) (searchError st) (hasSearched st) (debounce st)
    (selectionMode st) (selectedKeys st) (deleting st) (searchCalls st) (deleteCalls st).

Definition bump_history (st : State) : State :=
  mkState (activeSessionId st) (messages st) (S (historyVersion st)) (tab st) (logs st)
    (query st) (searchResults st) (searching st) (searchError st) (hasSearched st)
    (debounce st) (selectionMode st) (selectedKeys st) (deleting st)
    (searchCalls st) (deleteCalls st).

Definition set_tab (t : Tab) (st : State) : State :=
  mkState (activeSessionId st) (messages st) (historyVersion st) t (logs st)
    (query st) (searchResults st) (searching st) (searchError st) (hasSearched st)
    (debounce st) (selectionMode st) (selectedKeys st) (deleting st)
    (searchCalls st) (deleteCalls st).

Definition set_logs (found : list LogItem) (st : State) : State :=
  mkState (activeSessionId st) (messages st) (historyVersion st) (tab st) found
    (query st) (searchResults st) (searching st) (searchError st) (hasSearched st)
    (debounce st) (selectionMode st) (selectedKeys st) (deleting st)
    (searchCalls st) (deleteCalls st).

Definition set_search (q : string) (results : list LogItem) (busy : bool)
    (err : option string) (searched : bool) (timer : option string)
    (calls : list string) (st : State) : State :=
  mkState (activeSessionId st) (messages st) (historyVersion st) (tab st) (logs st)
    q results busy err searched timer
    (selectionMode st) (selectedKeys st) (deleting st) calls (deleteCalls st).

Definition set_selection (mode : bool) (keys : gset string) (st : State) : State :=
  mkState (activeSessionId st) (messages st) (historyVersion st) (tab st) (logs st)
    (query st) (searchResults st) (searching st) (searchError st) (hasSearched st)
    (debounce st) mode keys (deleting st) (searchCalls st) (deleteCalls st).

Definition set_deleting (busy : bool) (calls : list DeleteCall) (st : State) : State :=
  mkState (activeSessionId st) (messages st) (historyVersion st) (tab st) (logs st)
    (query st) (searchResults st) (searching st) (searchError st) (hasSearched st)
    (debounce st) (selectionMode st) (selectedKeys st) busy (searchCalls st) calls.

(** *** HomePage *)

(** [startNewChat] *)
Definition startNewChat (st : State) : State :=
  bump_history (set_session None [] st).

(** [loadChat(chatSessionId, logs)] *)
Definition loadChat (chatSessionId : string) (chatLogs : list LogItem) (st : State) : State :=
  set_session (Some chatSessionId)
    (flat_map (fun l => [(user, question l); (assistant, answer l)]) chatLogs) st.

(** [handleDeleteChats(deletedSessionIds)], with the [sessionId] its
    closure holds. *)
Definition handleDeleteChats (sessionId : option string)
    (deletedSessionIds : option (list string)) (st : State) : State :=
  let st := bump_history st in
  let hit :=
    match deletedSessionIds with
    | None => true
    | Some ids =>
        match sessionId with
        | Some sid => JS.truthy sid && JS.includes ids sid
        | None => false
        end
    end in
  if hit then startNewChat st else st.

(** *** Sidebar: search *)

(** [handleSearch(value)] *)
Definition handleSearch (value : string) (st : State) : State :=
  if negb (JS.truthy (JS.trim value))
  then set_search value [] (searching st) None false None (searchCalls st) st
  else set_search value (searchResults st) (searching st) (searchError st)
         (hasSearched st) (Some (JS.trim value)) (searchCalls st) st.

(** [runSearch(term)] up to the moment the request is sent. *)
Definition runSearch (term : string) (st : State) : State :=
  set_search (query st) (searchResults st) true None true (debounce st)
    (searchCalls st ++ [term]) st.

(** The [.then / .catch / .finally] chain of [runSearch], when the answer
    of a request arrives: [Some logs] for a good answer. *)
Definition search_settled (outcome : option (list LogItem)) (st : State) : State :=
  match outcome with
  | Some found =>
      set_search (query st) found false (searchError st) (hasSearched st) (debounce st)
        (searchCalls st) st
  | None =>
      set_search (query st) (searchResults st) false (Some "Search failed") (hasSearched st)
        (debounce st) (searchCalls st) st
  end.

(** [historyItems]: what the grouping pass is fed. *)
Definition historyItems (st : State) : list LogItem :=
  match tab st with
  | history => logs st
  | search => searchResults st
  end.

(** *** Sidebar: deletion *)

(** [callDelete(sessionIds)] up to [await fetch(...)]. *)
Definition callDelete (sessionIds : option (list string)) (st : State) : State :=
  set_deleting true (deleteCalls st ++ [mkDeleteCall sessionIds (activeSessionId st)]) st.

(** [callDelete] after the [await]: [ok] says that the request was
    answered with a status in the 200 range; a rejected [fetch] and any
    other status end in the [catch]. *)
Definition delete_settled (call : DeleteCall) (ok : bool) (st : State) : State :=
  let st :=
    if ok
    then set_selection false ∅ (handleDeleteChats (capturedSessionId call) (target call) st)
    else st in
  set_deleting false (deleteCalls st) st.

(** *** Events *)

Inductive Event :=
  | HistoryLoaded (found : list LogItem)
  | SelectTab (t : Tab)
  | TypeQuery (value : string)
  | DebounceElapsed
  | SearchAnswered (n : nat) (outcome : option (list LogItem))
  | ClickNewChat
  | ClickSelect
  | ClickCancel
  | ClickRow (conv : Conversation)
  | ClickTrash (conv : Conversation)
  | ClickDeleteSelected
  | ClickDeleteAll
  | DeleteAnswered (n : nat) (ok : bool).

Definition step (st : State) (e : Event) : State :=
  match e with
  | HistoryLoaded found => set_logs found st
  | SelectTab t => set_tab t st
  | TypeQuery value =>
      match tab st with
      | search => handleSearch value st
      | history => st
      end
  | DebounceElapsed =>
      match debounce st with
      | Some term =>
          runSearch term
            (set_search (query st) (searchResults st) (searching st) (searchError st)
               (hasSearched st) None (searchCalls st) st)
      | None => st
      end
  | SearchAnswered n outcome =>
      match searchCalls st !! n with
      | Some _ =>
          search_settled outcome
            (set_search (query st) (searchResults st) (searching st) (searchError st)
               (hasSearched st) (debounce st) (delete n (searchCalls st)) st)
      | None => st
      end
  | ClickNewChat =>
      match tab st with
      | history => startNewChat st
      | search => st
      end
  | ClickSelect =>
      if selectionMode st then st else set_selection true (selectedKeys st) st
  | ClickCancel =>
      if selectionMode st then set_selection false ∅ st else st
  | ClickRow conv =>
      if selectionMode st then
        set_selection true
          (if bool_decide (key conv ∈ selectedKeys st)
           then selectedKeys st ∖ {[key conv]}
           else selectedKeys st ∪ {[key conv]}) st
      else loadChat (default (key conv) (convSessionId conv)) (allLogs conv) st
  | ClickTrash conv =>
      match convSessionId conv with
      | Some sid =>
          if negb (selectionMode st) && JS.truthy sid && negb (deleting st)
          then callDelete (Some [sid]) st
          else st
      | None => st
      end
  | ClickDeleteSelected =>
      if selectionMode st && negb (bool_decide (size (selectedKeys st) = 0) || deleting st)
      then callDelete (Some (elements (selectedKeys st))) st
      else st
  | ClickDeleteAll =>
      if selectionMode st && negb (deleting st) then callDelete None st else st
  | DeleteAnswered n ok =>
      match deleteCalls st !! n with
      | Some call => delete_settled call ok (set_deleting (deleting st) (delete n (deleteCalls st)) st)
      | None => st
      end
  end.

(** The state after a sequence of events. *)
Definition run (st : State) (events : list Event) : State := foldl step st events.

End App.


(** ** Invariants and orders used in the proofs *)

Module Invariants.
Import Sidebar GroupingSpec.

(** The comparator [after] compares the ranks of the elements of [l]. *)
Definition ranked_on {A} (after : A -> A -> bool) (rank : A -> Z) (l : list A) : Prop :=
  forall x y, x ∈ l -> y ∈ l -> after x y = (rank y <? rank x)%Z.

(** What the two accumulators of the grouping pass hold once the records
    [p] are visited. *)
Definition group_of (p : list LogItem) (sid : string) : Group :=
  let members := List.filter (in_session nonempty_session sid) p in
  mkGroup members (from_option question "" (head members)) (max_createdAt members).

Definition grouped_of (p : list LogItem) : GroupMap :=
  map (fun sid => (sid, group_of p sid)) (session_ids nonempty_session p).

Fixpoint ungrouped_of (i : nat) (p : list LogItem) : list (LogItem * nat) :=
  match p with
  | [] => []
  | r :: rest =>
      (if is_legacy nonempty_session r then [(r, i)] else []) ++ ungrouped_of (S i) rest
  end.

(** [s] is a time not later than [s'], both being dates. *)
Definition not_later (getTime : string -> option Z) (s s' : string) : Prop :=
  match getTime s, getTime s' with
  | Some x, Some y => (x <= y)%Z
  | _, _ => False
  end.

(** At most one deletion is waiting for its answer, and none is while the
    busy flag is down. *)
Definition one_in_flight (st : App.State) : Prop :=
  length (App.deleteCalls st) <= 1
  /\ (App.deleting st = false -> App.deleteCalls st = []).

End Invariants.

(** ** Data for the closed examples *)

Module Examples.

(** Two records whose [sessionId] is the empty string. *)
Definition blank_sessions : list LogItem :=
  [ mkLog (Some "") "first" "one" "gpt" "2026-02-18T10:00:00.000Z";
    mkLog (Some "") "second" "two" "gpt" "2026-02-18T10:05:00.000Z" ].

(** The scenario of section 8 of the design document. *)
Definition scenario : list LogItem :=
  [ mkLog (Some "A") "hi" "hello" "gpt" "2026-02-18T10:00:01.000Z";
    mkLog (Some "A") "bye" "later" "gpt" "2026-02-18T10:00:02.000Z";
    mkLog None "legacy" "old" "gpt" "2026-02-18T10:00:00.000Z" ].






Definition convA : Conversation :=
  mkConv "A" (Some "A") "hi" "2026-02-18T10:00:02.000Z" "gpt" 2 [].

Definition convB : Conversation :=
  mkConv "B" (Some "B") "other" "2026-02-18T09:00:00.000Z" "gpt" 1 [].

Definition found_a : list LogItem :=
  [ mkLog (Some "A") "a question" "reply" "gpt" "2026-02-18T10:00:00.000Z" ].

Definition found_ab : list LogItem :=
  [ mkLog (Some "B") "about" "abstract" "gpt" "2026-02-18T11:00:00.000Z" ].

End Examples.

(** ** Predicates used in the statements about the routes and the sidebar *)

Module Views.
Import GroupingSpec.

(** The [sessionId] of [d] is one of [ids]: the filter
    [{ sessionId: { $in: ids } }] on a list of strings. *)
Definition in_ids (ids : list string) (d : LogItem) : bool :=
  match sessionId d with
  | Some s => bool_decide (s ∈ ids)
  | None => false
  end.

(** The record belongs to one of the sessions [ids] of the sidebar. *)
Definition in_sessions (ids : list string) (r : LogItem) : bool :=
  match nonempty_session r with
  | Some s => bool_decide (s ∈ ids)
  | None => false
  end.

(** The summary is the row of a session (not a legacy row). *)
Definition of_session (c : Conversation) : bool :=
  match convSessionId c with
  | Some _ => true
  | None => false
  end.

(** The rank of a summary in the order of the sidebar: the later its
    date, the lower. *)
Definition date_rank (getTime : string -> option Z) (c : Conversation) : Z :=
  (- default 0 (getTime (date c)))%Z.

(** The string does not start with white space. *)
Definition trimmed_start (s : string) : Prop :=
  match s with
  | String ch _ => Ascii.is_space ch = false
  | EmptyString => True
  end.

(** A search term that can be sent: not empty, and with no white space
    around it. *)
Definition ready (term : string) : Prop := JS.truthy term = true /\ JS.trim term = term.

(** The term of the pending timer and the terms of the requests in
    flight can be sent. *)
Definition terms_ready (st : App.State) : Prop :=
  (forall term, App.debounce st = Some term -> ready term)
  /\ Forall ready (App.searchCalls st).

End Views.

(** ** The other handler of the logs route *)

Module LogsRoute.
Import Mongo Routes.

(** [GET /api/logs]: it reads the connection string of the environment
    only, answers with no records when there is none, and has no [catch]:
    a store that does not answer ends the request with status 500. *)
Definition GET_logs (env : Env) (c : Collection) : Response (list LogItem) :=
  if negb (JS.truthy_opt (MONGO_URI env)) then Json []
  else if negb (reachable env) then Failed 500
  else Json (find_sorted (fun _ => true) (Some 50) c).

End LogsRoute.

(** ** The chat page: restoring the last session and sending a message *)

Module Page.
Import App.

(** A request to [/api/chat] waiting for its answer. *)
Record ChatCall := mkChatCall {
  chatMessage : string;
  chatSessionId : string;
  chatSettings : Mongo.JSON;
}.

(** How a request to [/api/chat] ends: a good answer with its [answer]
    field ([None] when the field is missing or null), or anything else (a
    rejected [fetch], a body that is no JSON, a status outside the 200
    range) with the message of the error thrown. *)
Inductive ChatOutcome :=
  | Replied (answer : option string)
  | Refused (message : string).

Record State := mkPage {
  app : App.State;
  input : string;
  loading : bool;
  chatCalls : list ChatCall;
}.

Definition initial : State := mkPage App.initial "" false [].

Definition with_app (f : App.State -> App.State) (ps : State) : State :=
  mkPage (f (app ps)) (input ps) (loading ps) (chatCalls ps).

(** [setMessages((m) => [...m, { role, content }])] *)
Definition push (role : Role) (content : string) (st : App.State) : App.State :=
  set_session (activeSessionId st) (messages st ++ [(role, content)]) st.

(** [logs.flatMap((l) => [user question, assistant answer])] *)
Definition toMessages (logs : list LogItem) : list (Role * string) :=
  flat_map (fun l => [(user, question l); (assistant, answer l)]) logs.

Section WithClock.
Variable getTime : string -> option Z.

(** The [.then] of the effect that loads the most recent session when
    the page is mounted, on the [logs] of a good answer. *)
Definition restore (logs : list LogItem) (st : App.State) : App.State :=
  match logs with
  | [] => st
  | first :: _ =>
      let mostRecentSessionId :=
        List.find (fun l => JS.truthy_opt (sessionId l)) logs ≫= sessionId in
      let sessionLogs :=
        if JS.truthy_opt mostRecentSessionId
        then List.filter (fun l => bool_decide (sessionId l = mostRecentSessionId)) logs
        else [first] in
      let sorted := JS.Array_sort (Sidebar.byCreatedAt getTime) sessionLogs in
      set_session
        (if JS.truthy_opt mostRecentSessionId then mostRecentSessionId
         else activeSessionId st)
        (toMessages sorted) st
  end.

(** [sendMessage(e)] up to [await fetch(...)]. [fresh] is the identifier
    [crypto.randomUUID()] would return; [settings] is what
    [JSON.parse(settingsStr)] gives, the message of the error when it
    throws. *)
Definition sendMessage (fresh : string) (settings : string + Mongo.JSON) (ps : State) : State :=
  let msg := JS.trim (input ps) in
  if negb (JS.truthy msg) then ps
  else
    let st := push user msg (app ps) in
    match settings with
    | inl errorMessage =>
        mkPage (push assistant ("Error: " +:+ errorMessage) st) "" false (chatCalls ps)
    | inr settings =>
        let currentSessionId :=
          match activeSessionId st with
          | Some sid => if JS.truthy sid then sid else fresh
          | None => fresh
          end in
        mkPage (set_session (Some currentSessionId) (messages st) st) "" true
               (chatCalls ps ++ [mkChatCall msg currentSessionId settings])
    end.

(** [sendMessage] after the [await]. *)
Definition chat_settled (outcome : ChatOutcome) (ps : State) : State :=
  match outcome with
  | Replied answer =>
      mkPage (bump_history (push assistant (default "(no answer)" answer) (app ps)))
             (input ps) false (chatCalls ps)
  | Refused message =>
      mkPage (push assistant ("Error: " +:+ message) (app ps)) (input ps) false (chatCalls ps)
  end.

Inductive Event :=
  | InSidebar (e : App.Event)
  | Restored (logs : list LogItem)
  | Edit (value : string)
  | Submit (fresh : string) (settings : string + Mongo.JSON)
  | ChatAnswered (n : nat) (outcome : ChatOutcome).

(** The text area and the Send button are disabled while [loading]. *)
Definition step (ps : State) (e : Event) : State :=
  match e with
  | InSidebar e => with_app (fun st => App.step st e) ps
  | Restored logs => with_app (restore logs) ps
  | Edit value =>
      if loading ps then ps else mkPage (app ps) value (loading ps) (chatCalls ps)
  | Submit fresh settings =>
      if loading ps then ps else sendMessage fresh settings ps
  | ChatAnswered n outcome =>
      match chatCalls ps !! n with
      | Some _ =>
          chat_settled outcome (mkPage (app ps) (input ps) (loading ps) (delete n (chatCalls ps)))
      | None => ps
      end
  end.

Definition run (ps : State) (events : list Event) : State := foldl step ps events.
End WithClock.


(** Every request that waits for its answer carries the active session. *)
Definition calls_in_session (ps : State) : Prop :=
  Forall (fun call => activeSessionId (app ps) = Some (chatSessionId call)) (chatCalls ps).

(** The spinner is up exactly while a request waits for its answer, and
    at most one does. *)
Definition one_chat_call (ps : State) : Prop :=
  length (chatCalls ps) <= 1 /\ loading ps = bool_decide (chatCalls ps ≠ []).

End Page.

(** ** The history loader of the sidebar *)

Module HistoryLoader.

(** A request of the effect that waits for its answer: the run of the
    effect that sent it, and the [cancelled] flag of that run. *)
Record Request := mkRequest {
  sentBy : nat;
  cancelled : bool;
}.

Record State := mkLoader {
  logs : list LogItem;
  loading : bool;
  error : option string;
  requests : list Request;
  (* the run whose cleanup React holds, if any, and the number of runs so far *)
  cleanup : option nat;
  runs : nat;
}.

Definition initial : State := mkLoader [] true None [] None 0.

(** [return () => { cancelled = true; }] of run [r]. *)
Definition cancel (r : option nat) (reqs : list Request) : list Request :=
  map (fun q => if bool_decide (Some (sentBy q) = r) then mkRequest (sentBy q) true else q) reqs.

(** A run of the effect, after the cleanup of the run before: [isOpen]
    as the render has it, and whether the saved settings parse. *)
Definition effect (isOpen settingsParse : bool) (st : State) : State :=
  let reqs := cancel (cleanup st) (requests st) in
  if negb isOpen then mkLoader (logs st) (loading st) (error st) reqs None (runs st)
  else
    let isInitialLoad := (length (logs st) =? 0)%nat in
    if settingsParse
    then mkLoader (logs st) (if isInitialLoad then true else loading st) None
                  (reqs ++ [mkRequest (runs st) false]) (Some (runs st)) (S (runs st))
    else mkLoader (logs st) false None reqs (Some (runs st)) (S (runs st)).

(** The [.then / .catch / .finally] chain on the answer to request [q]:
    [Some logs] for a good answer. *)
Definition settled (q : Request) (outcome : option (list LogItem)) (st : State) : State :=
  if cancelled q then st
  else match outcome with
       | Some found => mkLoader found false (error st) (requests st) (cleanup st) (runs st)
       | None =>
           mkLoader (logs st) false (Some "Failed to load history") (requests st)
                    (cleanup st) (runs st)
       end.

Inductive Event :=
  | Effect (isOpen settingsParse : bool)
  | Answered (n : nat) (outcome : option (list LogItem)).

Definition step (st : State) (e : Event) : State :=
  match e with
  | Effect isOpen settingsParse => effect isOpen settingsParse st
  | Answered n outcome =>
      match requests st !! n with
      | Some q =>
          settled q outcome
            (mkLoader (logs st) (loading st) (error st) (delete n (requests st))
                      (cleanup st) (runs st))
      | None => st
      end
  end.

Definition run (st : State) (events : list Event) : State := foldl step st events.

(** What the sidebar shows of the loader. *)
Definition shown (st : State) : list LogItem * bool * option string :=
  (logs st, loading st, error st).

(** The requests are in the order of their runs, all runs are past,
    only the request of the run whose cleanup is pending can be live, and
    that run is the last one. *)
Definition well_formed (st : State) : Prop :=
  StronglySorted lt (sentBy <$> requests st)
  /\ Forall (fun q => sentBy q < runs st) (requests st)
  /\ Forall (fun q => cancelled q = false -> cleanup st = Some (sentBy q)) (requests st)
  /\ (forall k, cleanup st = Some k -> S k = runs st).

End HistoryLoader.

(** ** The settings dialog *)

Module Settings.
Import Mongo.

(** [obj.k] on the fields of a parsed object: of two fields with one
    name, [JSON.parse] keeps the last. *)
Fixpoint lookup (k : string) (fields : list (string * JSON)) : option JSON :=
  match fields with
  | [] => None
  | (k', v) :: rest =>
      match lookup k rest with
      | Some v' => Some v'
      | None => if String.eqb k k' then Some v else None
      end
  end.

(** [v.k] on a value that is not [null]: [None] is [undefined]. *)
Definition get (k : string) (v : JSON) : option JSON :=
  match v with
  | JObject fields => lookup k fields
  | _ => None
  end.

(** [v?.k] *)
Definition chain (k : string) (v : option JSON) : option JSON :=
  match v with
  | None | Some JNull => None
  | Some v => get k v
  end.

(** [if (v)] *)
Definition truthy (v : option JSON) : bool :=
  match v with
  | None | Some JNull => false
  | Some (JBool b) => b
  | Some (JNumber n) => negb (n =? 0)%Z
  | Some (JString s) => JS.truthy s
  | Some (JArray _) | Some (JObject _) => true
  end.

(** [a || b] with a value for [b] *)
Definition or_value (a : option JSON) (b : JSON) : JSON :=
  if truthy a then default b a else b.

(** [a || b] *)
Definition or_else (a b : option JSON) : option JSON :=
  if truthy a then a else b.

(** [v === "s"] *)
Definition is_string (s : string) (v : option JSON) : bool :=
  match v with
  | Some (JString s') => String.eqb s' s
  | _ => false
  end.

Inductive LlmProvider := openai | lmstudio | copilot.

Definition provider_name (p : LlmProvider) : string :=
  match p with
  | openai => "openai"
  | lmstudio => "lmstudio"
  | copilot => "copilot"
  end.

(** The fields of the dialog. A field takes whatever value the saved
    settings hold for it. *)
Record Fields := mkFields {
  llmProvider : LlmProvider;
  openaiApiKey : JSON;
  openaiModel : JSON;
  lmstudioUrl : JSON;
  lmstudioModel : JSON;
  copilotToken : JSON;
  copilotModel : JSON;
  mongoUri : JSON;
  mongoDb : JSON;
  systemInstruction : JSON;
}.

(** The initial values of the [useState] calls. *)
Definition defaults : Fields :=
  mkFields openai (JString "") (JString "gpt-3.5-turbo") (JString "http://localhost:1234")
           (JString "") (JString "") (JString "gpt-4.1") (JString "") (JString "")
           (JString "").

(** The provider the saved [llm] object stands for. *)
Definition saved_provider (llm : JSON) : LlmProvider :=
  let provider := get "provider" llm in
  if is_string "lmstudio" provider then lmstudio
  else if is_string "openai" provider then openai
  else if is_string "copilot" provider then copilot
  else if is_string "local-model" (get "selectedModel" llm) then lmstudio
  else openai.

(** [inferredOpenaiModel] *)
Definition saved_openaiModel (llm : JSON) : JSON :=
  let structured := chain "model" (get "openai" llm) in
  let selectedModel := get "selectedModel" llm in
  if negb (truthy structured) && truthy selectedModel
     && negb (is_string "local-model" selectedModel)
  then default JNull selectedModel
  else or_value (or_else structured (get "openaiModel" llm)) (JString "gpt-3.5-turbo").

(** The effect that loads the saved settings when the dialog opens:
    [parsed] is the value [JSON.parse] returns, [None] when nothing is
    saved or what is saved does not parse. Reading [parsed.llm] throws on
    [null], before any field is set. *)
Definition load (parsed : option JSON) (f : Fields) : Fields :=
  match parsed with
  | None | Some JNull => f
  | Some parsed =>
      let f :=
        if truthy (get "llm" parsed) then
          let llm := default JNull (get "llm" parsed) in
          mkFields (saved_provider llm)
            (or_value (or_else (chain "apiKey" (get "openai" llm)) (get "openaiApiKey" llm))
                      (JString ""))
            (saved_openaiModel llm)
            (or_value (or_else (chain "url" (get "lmstudio" llm)) (get "lmstudioUrl" llm))
                      (JString "http://localhost:1234"))
            (or_value (or_else (chain "model" (get "lmstudio" llm)) (get "lmstudioModel" llm))
                      (JString ""))
            (or_value (chain "githubToken" (get "copilot" llm)) (JString ""))
            (or_value (chain "model" (get "copilot" llm)) (JString "gpt-4.1"))
            (mongoUri f) (mongoDb f) (systemInstruction f)
        else f in
      let f :=
        if truthy (get "database" parsed) then
          let database := default JNull (get "database" parsed) in
          mkFields (llmProvider f) (openaiApiKey f) (openaiModel f) (lmstudioUrl f)
            (lmstudioModel f) (copilotToken f) (copilotModel f)
            (or_value (get "mongoUri" database) (JString ""))
            (or_value (get "mongoDb" database) (JString ""))
            (systemInstruction f)
        else f in
      mkFields (llmProvider f) (openaiApiKey f) (openaiModel f) (lmstudioUrl f)
        (lmstudioModel f) (copilotToken f) (copilotModel f) (mongoUri f) (mongoDb f)
        (or_value (get "systemInstruction" parsed) (JString ""))
  end.

(** The object [handleSave] and the auto-save write to [localStorage]. *)
Definition save (f : Fields) : JSON :=
  JObject
    [ ("llm", JObject
                [ ("provider", JString (provider_name (llmProvider f)));
                  ("openai", JObject [("apiKey", openaiApiKey f); ("model", openaiModel f)]);
                  ("lmstudio", JObject [("url", lmstudioUrl f); ("model", lmstudioModel f)]);
                  ("copilot", JObject [("githubToken", copilotToken f);
                                       ("model", copilotModel f)]) ]);
      ("database", JObject [("mongoUri", mongoUri f); ("mongoDb", mongoDb f)]);
      ("systemInstruction", systemInstruction f) ].

(** A field that is falsy when saved comes back as the value the loader
    falls back to. *)
Definition reloaded (f : Fields) : Fields :=
  mkFields (llmProvider f)
    (or_value (Some (openaiApiKey f)) (JString ""))
    (or_value (Some (openaiModel f)) (JString "gpt-3.5-turbo"))
    (or_value (Some (lmstudioUrl f)) (JString "http://localhost:1234"))
    (or_value (Some (lmstudioModel f)) (JString ""))
    (or_value (Some (copilotToken f)) (JString ""))
    (or_value (Some (copilotModel f)) (JString "gpt-4.1"))
    (or_value (Some (mongoUri f)) (JString ""))
    (or_value (Some (mongoDb f)) (JString ""))
    (or_value (Some (systemInstruction f)) (JString "")).

(** Every field holds a string. *)
Definition texts (f : Fields) : Prop :=
  exists k m u lm t cm uri db si,
    f = mkFields (llmProvider f) (JString k) (JString m) (JString u) (JString lm) (JString t)
          (JString cm) (JString uri) (JString db) (JString si).

(** The test of the chat page, when it is mounted, that opens the
    dialog on a first visit: [!hasLlm && !hasDb] on the parsed settings,
    [None] when nothing is saved ([settings] is then [{}]). On [null] the
    reading of [settings.llm] throws and the dialog stays closed. *)
Definition opensOnFirstVisit (parsed : option JSON) : bool :=
  match parsed with
  | None => true
  | Some JNull => false
  | Some settings =>
      let llm := get "llm" settings in
      let hasLlm :=
        or_else (chain "apiKey" (chain "openai" llm)) (chain "model" (chain "lmstudio" llm)) in
      let hasDb := chain "mongoUri" (get "database" settings) in
      negb (truthy hasLlm) && negb (truthy hasDb)
  end.

End Settings.

(** ** The lists of models *)

Module Models.

(** [ids.sort()]: the default order of strings, by code unit. The
    identifiers of models are ASCII, where it is the order of bytes. *)
Definition sort (ids : list string) : list string :=
  JS.stable_sort (fun a b => String.ltb b a) ids.

(** [(current) => { if (!current && ids.length > 0) return ids[0]; return current; }] *)
Definition autoSelect (ids : list string) (current : string) : string :=
  if negb (JS.truthy current) && (0 <? length ids)%nat
  then default current (head ids)
  else current.

(** [fetchLmModels] on the identifiers of a good answer: the list shown
    and the selected model. *)
Definition lmModels_answer (data : list string) (current : string) : list string * string :=
  let ids := sort data in (ids, autoSelect ids current).

(** [fetchOpenAIModels] on the identifiers of a good answer. *)
Definition openaiModels_answer (data : list string) (current : string) : list string * string :=
  let ids := sort (List.filter (SearchSpec.contains "gpt") data) in
  (ids, autoSelect ids current).

(** [s.replace(/\/+$/, "")] *)
Fixpoint dropSlashes (s : string) : string :=
  match s with
  | String "/" s' => dropSlashes s'
  | _ => s
  end.

(** [url.trim().replace(/\/+$/, "")] *)
Definition cleanUrl (url : string) : string :=
  String.rev (dropSlashes (String.rev (JS.trim url))).

(** [n] slashes. *)
Fixpoint slashes (n : nat) : string :=
  match n with
  | 0 => ""
  | S n => String "/" (slashes n)
  end.

(** What the server of LM Studio does with a request: no answer (with
    the message of the error [fetch] throws), or a status and, when the
    body is JSON, the parsed body. *)
Inductive Upstream :=
  | Unreachable (message : string)
  | Status (status : nat) (body : option Mongo.JSON).

(** [res.ok] *)
Definition ok (status : nat) : bool := (200 <=? status)%nat && (status <=? 299)%nat.

(** [POST /api/lmstudio-models]: the status of the response and the URL
    asked of the upstream server, if any. A body that is no JSON makes
    [res.json()] throw. *)
Definition POST_models (upstream : string -> Upstream) (url : option Mongo.JSON)
  : nat * option string :=
  match url with
  | Some (Mongo.JString url) =>
      if negb (JS.truthy url) then (400, None)
      else
        let target := cleanUrl url +:+ "/v1/models" in
        match upstream target with
        | Unreachable _ => (502, Some target)
        | Status status body =>
            if ok status
            then match body with Some _ => (200, Some target) | None => (502, Some target) end
            else (status, Some target)
        end
  | _ => (400, None)
  end.

End Models.

(** * Properties *)

(** ** The stable sort *)

Module SortFacts.
Import Invariants.

Section Facts.
Context {A : Type} (after : A -> A -> bool).

Lemma insert_sorted_Permutation x l : JS.insert_sorted after x l ≡ₚ x :: l.
Proof.
  induction l as [|y l IH]; simpl; [done|].
  destruct (after x y); [|done].
  rewrite IH. apply perm_swap.
Qed.

Lemma stable_sort_Permutation l : JS.stable_sort after l ≡ₚ l.
Proof.
  induction l as [|x l IH]; simpl; [done|].
  rewrite insert_sorted_Permutation. by rewrite IH.
Qed.

Lemma stable_sort_length l : length (JS.stable_sort after l) = length l.
Proof. by rewrite stable_sort_Permutation. Qed.

Lemma stable_sort_nil_inv l : JS.stable_sort after l = [] → l = [].
Proof.
  intros E. apply Permutation_nil_r. rewrite <- E.
  symmetry. apply stable_sort_Permutation.
Qed.

Lemma stable_sort_ext (after' : A → A → bool) l :
  (∀ x y, after x y = after' x y) → JS.stable_sort after l = JS.stable_sort after' l.
Proof.
  intros H. induction l as [|x l IH]; simpl; [done|]. rewrite IH.
  generalize (JS.stable_sort after' l). intros k.
  induction k as [|y k IHk]; simpl; [done|]. by rewrite H, IHk.
Qed.

(** When the comparator decides an order [R] on the elements that
    satisfy [P], the result is ordered by [R]. *)
Section Ordered.
Context (P : A → Prop) (R : relation A).
Hypothesis after_true : ∀ x y, P x → P y → after x y = true → R y x.
Hypothesis after_false : ∀ x y, P x → P y → after x y = false → R x y.
Hypothesis R_trans : ∀ x y z, P x → P y → P z → R x y → R y z → R x z.

Lemma insert_sorted_sorted x l :
  P x → Forall P l → StronglySorted R l →
  StronglySorted R (JS.insert_sorted after x l).
Proof.
  intros Hx HP Hl. induction Hl as [|y l Hl IH Hy]; simpl.
  - repeat constructor.
  - apply Forall_cons in HP as [Py HP].
    destruct (after x y) eqn:E.
    + constructor; [by apply IH|].
      rewrite insert_sorted_Permutation. constructor; [|done].
      by apply after_true.
    + assert (R x y) as Rxy by by apply after_false.
      constructor; [by constructor|].
      constructor; [done|].
      rewrite Forall_forall in Hy, HP. apply Forall_forall. intros z Hz.
      apply (R_trans x y z); auto.
Qed.

Lemma stable_sort_sorted l :
  Forall P l → StronglySorted R (JS.stable_sort after l).
Proof.
  induction l as [|x l IH]; intros H; simpl; [constructor|].
  apply Forall_cons in H as [Hx H].
  apply insert_sorted_sorted; [done| |by apply IH].
  by rewrite stable_sort_Permutation.
Qed.
End Ordered.

(** When the comparator compares ranks, elements of equal rank keep
    their input order. *)
Section Ranked.
Context (rank : A → Z).

Lemma ranked_on_cons x l : ranked_on after rank (x :: l) → ranked_on after rank l.
Proof. intros H a b Ha Hb. apply H; by right. Qed.

Lemma insert_sorted_stable z x l :
  (∀ y, y ∈ l → after x y = (rank y <? rank x)%Z) →
  List.filter (λ a, (rank a =? z)%Z) (JS.insert_sorted after x l)
  = List.filter (λ a, (rank a =? z)%Z) (x :: l).
Proof.
  induction l as [|y l IH]; intros Hx; [done|].
  cbn [JS.insert_sorted]. rewrite (Hx y) by left.
  destruct (Z.ltb_spec (rank y) (rank x)) as [Hlt|Hge]; [|done].
  cbn [List.filter]. rewrite IH by (intros; apply Hx; by right).
  cbn [List.filter].
  destruct (Z.eqb_spec (rank y) z), (Z.eqb_spec (rank x) z); try done; lia.
Qed.

Lemma stable_sort_stable z l :
  ranked_on after rank l →
  List.filter (λ a, (rank a =? z)%Z) (JS.stable_sort after l)
  = List.filter (λ a, (rank a =? z)%Z) l.
Proof.
  induction l as [|x l IH]; intros H; [done|].
  cbn [JS.stable_sort foldr]. rewrite insert_sorted_stable.
  - cbn [List.filter]. fold (JS.stable_sort after l).
    rewrite IH by (by eapply ranked_on_cons). done.
  - intros y Hy. apply H; [by left|].
    right. by rewrite <- (stable_sort_Permutation l).
Qed.
End Ranked.
End Facts.

(** The order of sortable strings. *)
Lemma ltb_leb a b : String.ltb a b = negb (String.leb b a).
Proof.
  unfold String.ltb, String.leb. rewrite (String.compare_antisym a b).
  by destruct (String.compare b a).
Qed.

(** [.sort({ field: -1 })] leaves the larger strings first. *)
Lemma sort_desc_sorted {A} (field : A → string) l :
  StronglySorted (λ a b, (field b ≤ field a)%string) (Mongo.sort_desc field l).
Proof.
  apply (stable_sort_sorted _ (λ _, True)).
  - intros x y _ _ H. rewrite ltb_leb, negb_true_iff in H.
    destruct (total String.le (field x) (field y)) as [Hle|Hle]; [done|].
    unfold String.le in Hle. rewrite H in Hle. done.
  - intros x y _ _ H. rewrite ltb_leb, negb_false_iff in H.
    unfold String.le. by rewrite H.
  - intros x y z _ _ _ H1 H2. by etrans.
  - by apply Forall_true.
Qed.

Lemma sort_desc_Permutation {A} (field : A → string) l : Mongo.sort_desc field l ≡ₚ l.
Proof. apply stable_sort_Permutation. Qed.

End SortFacts.

(** ** The grouping pass against the documented algorithm *)

Module GroupingFacts.
Import Util GroupingSpec Sidebar Invariants.

Lemma str_max_empty c : str_max "" c = c.
Proof. unfold str_max. by destruct c. Qed.

(** The guard [!existing.latestDate || log.createdAt > existing.latestDate]
    selects the larger string. *)
Lemma latestDate_guard m c :
  (if negb (JS.truthy m) || String.ltb m c then c else m) = str_max m c.
Proof.
  unfold str_max, JS.truthy. destruct (String.eqb_spec m "") as [->|Hm]; simpl; [|done].
  by destruct c.
Qed.

Section Distinct.
Context `{EqDecision A}.
Implicit Types (x : A) (l : list A).

Lemma elem_of_distinct x l : x ∈ distinct l ↔ x ∈ l.
Proof.
  induction l as [|a l IH]; simpl; [done|].
  rewrite !elem_of_cons, list_elem_of_In, filter_In, <- list_elem_of_In, IH.
  rewrite bool_decide_eq_true.
  destruct (decide (x = a)); naive_solver.
Qed.

Lemma NoDup_distinct l : NoDup (distinct l).
Proof.
  induction l as [|a l IH]; simpl; constructor.
  - rewrite list_elem_of_In, filter_In, bool_decide_eq_true. naive_solver.
  - apply NoDup_ListNoDup, List.NoDup_filter, NoDup_ListNoDup, IH.
Qed.

Lemma distinct_snoc l x :
  distinct (l ++ [x]) = if bool_decide (x ∈ l) then distinct l else distinct l ++ [x].
Proof.
  induction l as [|a l IH]; [done|].
  cbn [app distinct]. rewrite IH.
  destruct (decide (x = a)) as [->|Hne].
  - rewrite (bool_decide_eq_true_2 (a ∈ a :: l)) by left.
    case_bool_decide; [done|].
    rewrite List.filter_app. simpl. rewrite bool_decide_eq_false_2 by naive_solver.
    by rewrite app_nil_r.
  - assert (bool_decide (x ∈ a :: l) = bool_decide (x ∈ l)) as ->.
    { apply bool_decide_ext. rewrite elem_of_cons. naive_solver. }
    case_bool_decide; [done|].
    rewrite List.filter_app. simpl.
    by rewrite bool_decide_eq_true_2.
Qed.

End Distinct.

(** The distinct identifiers are as many as the set of identifiers. *)
Lemma length_distinct (l : list string) :
  length (distinct l) = size (list_to_set l : gset string).
Proof.
  rewrite <- (size_list_to_set (C := gset string) (distinct l)) by apply NoDup_distinct.
  f_equal. apply set_eq. intros x.
  by rewrite !elem_of_list_to_set, elem_of_distinct.
Qed.

Lemma ungrouped_of_snoc i p x :
  ungrouped_of i (p ++ [x])
  = ungrouped_of i p ++ (if is_legacy nonempty_session x then [(x, i + length p)] else []).
Proof.
  revert i. induction p as [|r p IH]; intros i; simpl.
  - by rewrite Nat.add_0_r, app_nil_r.
  - rewrite IH. rewrite <- app_assoc. by rewrite Nat.add_succ_comm.
Qed.

Section Map.
Context (g : string → Group).

Lemma Map_get_map ids sid :
  Map_get (map (λ s, (s, g s)) ids) sid
  = if bool_decide (sid ∈ ids) then Some (g sid) else None.
Proof.
  induction ids as [|k ids IH]; simpl; [done|].
  destruct (String.eqb_spec k sid) as [->|Hne].
  - by rewrite bool_decide_eq_true_2 by left.
  - rewrite IH. apply (f_equal (λ b : bool, if b then _ else _)).
    apply bool_decide_ext. rewrite elem_of_cons. naive_solver.
Qed.

Lemma Map_modify_map ids sid f :
  NoDup ids →
  Map_modify (map (λ s, (s, g s)) ids) sid f
  = map (λ s, (s, if String.eqb s sid then f (g s) else g s)) ids.
Proof.
  induction 1 as [|k ids Hk Hids IH]; simpl; [done|].
  destruct (String.eqb_spec k sid) as [->|Hne].
  - f_equal. apply map_ext_in. intros s Hs%list_elem_of_In.
    destruct (String.eqb_spec s sid) as [->|]; [done|done].
  - by rewrite IH.
Qed.
End Map.

Lemma in_session_nonempty sid r :
  in_session nonempty_session sid r = true ↔ nonempty_session r = Some sid.
Proof.
  unfold in_session. destruct (nonempty_session r) as [s|]; [|done].
  rewrite String.eqb_eq. naive_solver.
Qed.

Lemma members_nil p sid :
  sid ∉ omap nonempty_session p → List.filter (in_session nonempty_session sid) p = [].
Proof.
  induction p as [|r p IH]; simpl; [done|].
  destruct (in_session nonempty_session sid r) eqn:E.
  - apply in_session_nonempty in E. rewrite E. intros []. by left.
  - intros H. apply IH. intros Hin. apply H.
    destruct (nonempty_session r); [by right|done].
Qed.

Lemma members_nonempty p sid :
  sid ∈ omap nonempty_session p → List.filter (in_session nonempty_session sid) p ≠ [].
Proof.
  rewrite list_elem_of_omap. intros (r & Hr & Hs) E.
  assert (In r (List.filter (in_session nonempty_session sid) p)) as Hin.
  { apply filter_In. split; [by apply list_elem_of_In|by apply in_session_nonempty]. }
  by rewrite E in Hin.
Qed.

Lemma max_createdAt_snoc l x : max_createdAt (l ++ [x]) = str_max (max_createdAt l) (createdAt x).
Proof. unfold max_createdAt, maximum. by rewrite fmap_app, foldl_app. Qed.

(** A record of session [sid] reaches the group of [sid] and no other. *)
Lemma group_of_snoc_member p x sid :
  nonempty_session x = Some sid → sid ∈ omap nonempty_session p →
  group_of (p ++ [x]) sid = push_log x (group_of p sid).
Proof.
  intros Hx Hin. unfold group_of, push_log. cbn [logs firstQuestion latestDate].
  rewrite List.filter_app. cbn [List.filter].
  rewrite (proj2 (in_session_nonempty sid x) Hx).
  pose proof (members_nonempty p sid Hin) as Hne.
  destruct (List.filter (in_session nonempty_session sid) p) as [|r members] eqn:E; [done|].
  rewrite max_createdAt_snoc.
  destruct (negb (JS.truthy (max_createdAt (r :: members)))
            || String.ltb (max_createdAt (r :: members)) (createdAt x)) eqn:G;
    pose proof (latestDate_guard (max_createdAt (r :: members)) (createdAt x)) as L;
    rewrite G in L; by rewrite <- L.
Qed.

Lemma group_of_snoc_fresh p x sid :
  nonempty_session x = Some sid → sid ∉ omap nonempty_session p →
  group_of (p ++ [x]) sid = mkGroup [x] (question x) (createdAt x).
Proof.
  intros Hx Hin. unfold group_of.
  rewrite List.filter_app, (members_nil p sid Hin). cbn [List.filter app].
  rewrite (proj2 (in_session_nonempty sid x) Hx). simpl.
  unfold max_createdAt, maximum. simpl. by rewrite str_max_empty.
Qed.

Lemma group_of_snoc_other p x s :
  nonempty_session x ≠ Some s → group_of (p ++ [x]) s = group_of p s.
Proof.
  intros Hx. unfold group_of. rewrite List.filter_app. cbn [List.filter].
  destruct (in_session nonempty_session s x) eqn:E.
  - by apply in_session_nonempty in E.
  - by rewrite app_nil_r.
Qed.

(** [visit] dispatches on the session of the record. *)
Lemma visit_cases grouped ungrouped x i :
  visit (grouped, ungrouped) x i
  = match nonempty_session x with
    | Some sid =>
        match Map_get grouped sid with
        | Some _ => (Map_modify grouped sid (push_log x), ungrouped)
        | None => (Map_set_new grouped sid (mkGroup [x] (question x) (createdAt x)), ungrouped)
        end
    | None => (grouped, ungrouped ++ [(x, i)])
    end.
Proof.
  unfold visit, nonempty_session.
  destruct (sessionId x) as [s|]; [destruct (JS.truthy s)|]; done.
Qed.

(** One step of the pass. *)
Lemma visit_step i p x :
  visit (grouped_of p, ungrouped_of i p) x (i + length p)
  = (grouped_of (p ++ [x]), ungrouped_of i (p ++ [x])).
Proof.
  rewrite visit_cases, ungrouped_of_snoc. unfold grouped_of, session_ids, is_legacy.
  rewrite omap_app. cbn [omap list_omap].
  destruct (nonempty_session x) as [sid|] eqn:Hx.
  - rewrite Map_get_map, app_nil_r.
    cbn [app]. rewrite distinct_snoc.
    assert (bool_decide (sid ∈ distinct (omap nonempty_session p))
            = bool_decide (sid ∈ omap nonempty_session p)) as ->.
    { apply bool_decide_ext, elem_of_distinct. }
    case_bool_decide as Hin.
    + rewrite Map_modify_map by apply NoDup_distinct.
      f_equal. apply map_ext_in. intros s _. f_equal.
      destruct (String.eqb_spec s sid) as [->|Hne].
      * by rewrite group_of_snoc_member.
      * rewrite group_of_snoc_other; [done|]. naive_solver.
    + unfold Map_set_new. rewrite map_app. cbn [map].
      rewrite group_of_snoc_fresh by done.
      f_equal. f_equal. apply map_ext_in. intros s Hs%list_elem_of_In. f_equal.
      rewrite group_of_snoc_other; [done|].
      intros Heq. rewrite Hx in Heq. injection Heq as ->.
      apply Hin. by apply elem_of_distinct.
  - rewrite app_nil_r. f_equal. apply map_ext_in. intros s _. f_equal.
    rewrite group_of_snoc_other; [done|by rewrite Hx].
Qed.

Lemma forEach_from_visit i p rest :
  JS.forEach_from visit (i + length p) rest (grouped_of p, ungrouped_of i p)
  = (grouped_of (p ++ rest), ungrouped_of i (p ++ rest)).
Proof.
  revert p. induction rest as [|x rest IH]; intros p; cbn [JS.forEach_from].
  - by rewrite app_nil_r.
  - rewrite visit_step.
    replace (S (i + length p)) with (i + length (p ++ [x])) by (rewrite length_app; simpl; lia).
    rewrite IH. by rewrite <- app_assoc.
Qed.

(** The pass leaves every session's records, in input order, under its
    identifier, sessions in order of first appearance, and the legacy
    records with their positions. *)
Lemma forEach_visit historyItems :
  JS.forEach visit historyItems ([], []) = (grouped_of historyItems, ungrouped_of 0 historyItems).
Proof. exact (forEach_from_visit 0 [] historyItems). Qed.

(** The running maximum stays within the strings it has seen and above
    each of them. *)
Lemma str_max_bounds m c :
  (m ≤ str_max m c)%string ∧ (c ≤ str_max m c)%string.
Proof.
  unfold str_max. rewrite SortFacts.ltb_leb.
  destruct (String.leb c m) eqn:E; simpl.
  { split; [done|]. unfold String.le. by rewrite E. }
  split; [|done]. destruct (total String.le m c) as [H|H]; [done|].
  unfold String.le in H. by rewrite E in H.
Qed.

Lemma foldl_str_max l m :
  (m ≤ foldl str_max m l)%string
  ∧ Forall (λ c, (c ≤ foldl str_max m l)%string) l
  ∧ foldl str_max m l ∈ m :: l.
Proof.
  revert m. induction l as [|c l IH]; intros m; simpl.
  - split_and!; [done|constructor|by left].
  - destruct (IH (str_max m c)) as (H1 & H2 & H3).
    destruct (str_max_bounds m c) as [Hm Hc]. split_and!.
    + by etrans.
    + constructor; [by etrans|done].
    + apply elem_of_cons in H3 as [->|H3]; [|by do 2 right].
      unfold str_max. destruct (String.ltb m c); [right|]; by left.
Qed.

Lemma max_createdAt_elem r records :
  max_createdAt (r :: records) ∈ createdAt <$> r :: records.
Proof.
  unfold max_createdAt, maximum. rewrite fmap_cons. cbn [foldl]. rewrite str_max_empty.
  apply (foldl_str_max (createdAt <$> records) (createdAt r)).
Qed.

Section Refinement.
Variable getTime : string → option Z.

(** The sign of the difference of two time values says which is later. *)
Lemma byCreatedAt_later a b :
  JS.positive (byCreatedAt getTime a b) = later getTime (createdAt a) (createdAt b).
Proof.
  unfold byCreatedAt, later.
  destruct (getTime (createdAt a)) as [x|], (getTime (createdAt b)) as [y|]; simpl; try done.
  destruct (Z.ltb_spec 0 (x - y)), (Z.ltb_spec y x); lia || done.
Qed.

Lemma byDateDesc_later a b :
  JS.positive (byDateDesc getTime a b) = later getTime (date b) (date a).
Proof.
  unfold byDateDesc, later.
  destruct (getTime (date b)) as [x|], (getTime (date a)) as [y|]; simpl; try done.
  destruct (Z.ltb_spec 0 (x - y)), (Z.ltb_spec y x); lia || done.
Qed.

Lemma grouped_entry_summary historyItems sid :
  sid ∈ omap nonempty_session historyItems →
  grouped_entry getTime (sid, group_of historyItems sid)
  = Some (session_summary getTime nonempty_session historyItems sid).
Proof.
  intros Hin. unfold grouped_entry, session_summary, group_of. cbn [logs latestDate].
  pose proof (members_nonempty historyItems sid Hin) as Hne.
  set (members := List.filter (in_session nonempty_session sid) historyItems) in *.
  unfold JS.Array_sort. rewrite (SortFacts.stable_sort_ext _ _ _ byCreatedAt_later).
  set (sorted := JS.stable_sort (λ a b, later getTime (createdAt a) (createdAt b)) members).
  assert (sorted ≠ []) as Hs.
  { intros E. apply Hne. by eapply SortFacts.stable_sort_nil_inv. }
  destruct (head_is_Some sorted) as [_ [first ->]]; [done|].
  destruct (last_is_Some sorted) as [_ [final ->]]; [done|].
  done.
Qed.

Lemma mapM_grouped_entry historyItems :
  mapM (grouped_entry getTime) (grouped_of historyItems)
  = Some (map (session_summary getTime nonempty_session historyItems)
              (session_ids nonempty_session historyItems)).
Proof.
  apply mapM_Some_2. unfold grouped_of.
  assert (∀ ids, (∀ s, s ∈ ids → s ∈ omap nonempty_session historyItems) →
            Forall2 (λ x y, grouped_entry getTime x = Some y)
              (map (λ sid, (sid, group_of historyItems sid)) ids)
              (map (session_summary getTime nonempty_session historyItems) ids)) as H.
  { induction ids as [|s ids IH]; intros Hsub; simpl; constructor.
    - apply grouped_entry_summary, Hsub. by left.
    - apply IH. intros. apply Hsub. by right. }
  apply H. intros s. apply elem_of_distinct.
Qed.

Lemma legacy_entries i historyItems :
  map legacy_entry (ungrouped_of i historyItems)
  = legacy_summaries nonempty_session i historyItems.
Proof.
  revert i. induction historyItems as [|r rest IH]; intros i; simpl; [done|].
  rewrite map_app, IH. by destruct (is_legacy nonempty_session r).
Qed.

(** The grouping pass computes the algorithm of the design document,
    with "has a session" read as "[sessionId] is a non-empty string". *)
Lemma conversations_grouping historyItems :
  conversations getTime historyItems
  = Some (grouping getTime nonempty_session historyItems).
Proof.
  unfold conversations. rewrite forEach_visit, mapM_grouped_entry. simpl.
  rewrite legacy_entries. unfold JS.Array_sort, grouping.
  by rewrite (SortFacts.stable_sort_ext _ _ _ byDateDesc_later).
Qed.

Lemma grouping_length historyItems :
  length (grouping getTime nonempty_session historyItems)
  = size (list_to_set (omap nonempty_session historyItems) : gset string)
    + length (List.filter (is_legacy nonempty_session) historyItems).
Proof.
  unfold grouping. rewrite SortFacts.stable_sort_length.
  rewrite length_app, length_map. unfold session_ids. rewrite length_distinct.
  f_equal. generalize 0. induction historyItems as [|r rest IH]; intros i; simpl; [done|].
  rewrite length_app, IH. by destruct (is_legacy nonempty_session r).
Qed.

Lemma earliest_first_sorted l :
  Forall (λ r, is_Some (getTime (createdAt r))) l →
  StronglySorted (λ r r', not_later getTime (createdAt r) (createdAt r'))
    (JS.stable_sort (λ a b, later getTime (createdAt a) (createdAt b)) l).
Proof.
  apply SortFacts.stable_sort_sorted; unfold not_later, later.
  - intros x y [tx ->] [ty ->] H. apply Z.ltb_lt in H. lia.
  - intros x y [tx ->] [ty ->] H. apply Z.ltb_ge in H. lia.
  - intros x y z [tx ->] [ty ->] [tz ->]. lia.
Qed.

Lemma latest_first_sorted l :
  Forall (λ c, is_Some (getTime (date c))) l →
  StronglySorted (λ c c', not_later getTime (date c') (date c))
    (JS.stable_sort (λ a b, later getTime (date b) (date a)) l).
Proof.
  apply SortFacts.stable_sort_sorted; unfold not_later, later.
  - intros x y [tx ->] [ty ->] H. apply Z.ltb_lt in H. lia.
  - intros x y [tx ->] [ty ->] H. apply Z.ltb_ge in H. lia.
  - intros x y z [tx ->] [ty ->] [tz ->]. lia.
Qed.

Lemma members_dated historyItems sid :
  Forall (λ r, is_Some (getTime (createdAt r))) historyItems →
  Forall (λ r, is_Some (getTime (createdAt r)))
    (List.filter (in_session nonempty_session sid) historyItems).
Proof.
  rewrite !Forall_forall. intros H r Hr. apply H.
  apply list_elem_of_In, filter_In in Hr as [Hr _]. by apply list_elem_of_In.
Qed.

Lemma legacy_summaries_dated i historyItems :
  Forall (λ r, is_Some (getTime (createdAt r))) historyItems →
  Forall (λ c, is_Some (getTime (date c))
               ∧ StronglySorted (λ r r', not_later getTime (createdAt r) (createdAt r')) (allLogs c))
    (legacy_summaries nonempty_session i historyItems).
Proof.
  intros H. revert i. induction H as [|r rest Hr H IH]; intros i; simpl; [constructor|].
  apply Forall_app. split; [|apply IH].
  destruct (is_legacy nonempty_session r); constructor; [|constructor].
  split; [done|]. repeat constructor.
Qed.

Lemma session_summaries_dated historyItems :
  Forall (λ r, is_Some (getTime (createdAt r))) historyItems →
  Forall (λ c, is_Some (getTime (date c))
               ∧ StronglySorted (λ r r', not_later getTime (createdAt r) (createdAt r')) (allLogs c))
    (map (session_summary getTime nonempty_session historyItems)
         (session_ids nonempty_session historyItems)).
Proof.
  intros H. apply Forall_forall. intros c Hc.
  apply list_elem_of_In, in_map_iff in Hc as (sid & <- & Hsid%list_elem_of_In).
  unfold session_ids in Hsid. rewrite elem_of_distinct in Hsid.
  pose proof (members_nonempty historyItems sid Hsid) as Hne.
  pose proof (members_dated historyItems sid H) as Hd.
  unfold session_summary. cbn [date allLogs].
  split; [|by apply earliest_first_sorted].
  destruct (List.filter (in_session nonempty_session sid) historyItems) as [|r members];
    [done|].
  pose proof (max_createdAt_elem r members) as Hin.
  apply list_elem_of_fmap in Hin as (r' & -> & Hr').
  rewrite Forall_forall in Hd. by apply Hd.
Qed.
End Refinement.

End GroupingFacts.

(** ** The deletion route *)

Module DeleteFacts.
Import Mongo Routes.

Lemma deleteMany_all c : deleteMany (λ _, true) c = (length c, []).
Proof.
  unfold deleteMany. induction c as [|d c IH]; [done|].
  simpl. by injection IH as -> ->.
Qed.

(** A filter on string identifiers matches no document without one. *)
Lemma matches_in_strings_None ids : matches_in (map JString ids) None = false.
Proof. induction ids; simpl; auto. Qed.

Lemma delete_logs_strings id ids c :
  delete_logs (delete_body (Some (id :: ids))) c
  = deleteMany (λ d, matches_in (map JString (id :: ids)) (sessionId d)) c.
Proof. done. Qed.


End DeleteFacts.

(** ** The page and the sidebar *)

Module AppFacts.
Import App Invariants.

Lemma one_in_flight_initial : one_in_flight initial.
Proof. split; [simpl; lia|done]. Qed.

Lemma one_in_flight_callDelete sessionIds st :
  one_in_flight st → deleting st = false → one_in_flight (callDelete sessionIds st).
Proof. intros [_ H] Hd. split; [|done]. simpl. by rewrite (H Hd). Qed.

Lemma delete_settled_calls call ok st :
  deleteCalls (delete_settled call ok st) = deleteCalls st.
Proof.
  unfold delete_settled, handleDeleteChats.
  destruct ok; [|done]. by repeat case_match.
Qed.

Lemma one_in_flight_step st e : one_in_flight st → one_in_flight (step st e).
Proof.
  intros Hinv. destruct e; simpl; try done.
  - by destruct (tab st); [|unfold handleSearch; case_match].
  - by destruct (debounce st).
  - by destruct (searchCalls st !! n); [destruct outcome|].
  - by destruct (tab st).
  - by destruct (selectionMode st).
  - by destruct (selectionMode st).
  - by destruct (selectionMode st).
  - destruct (convSessionId conv) as [sid|]; [|done].
    destruct (selectionMode st), (JS.truthy sid), (deleting st) eqn:Hd; simpl; try done.
    by apply one_in_flight_callDelete.
  - destruct (selectionMode st), (bool_decide (size (selectedKeys st) = 0)),
      (deleting st) eqn:Hd; simpl; try done.
    by apply one_in_flight_callDelete.
  - destruct (selectionMode st), (deleting st) eqn:Hd; simpl; try done.
    by apply one_in_flight_callDelete.
  - destruct (deleteCalls st !! n) as [call|] eqn:Hn; [|done].
    destruct Hinv as [Hlen _].
    assert (delete n (deleteCalls st) = []) as Hnil.
    { destruct (deleteCalls st) as [|c [|c' l]]; simpl in *; [done| |lia].
      by destruct n. }
    split; rewrite delete_settled_calls; simpl; rewrite Hnil; [simpl; lia|done].
Qed.

Lemma one_in_flight_run st events : one_in_flight st → one_in_flight (run st events).
Proof.
  revert st. induction events as [|e events IH]; intros st H; [done|].
  apply IH. by apply one_in_flight_step.
Qed.

(** While the busy flag is up, the three delete controls do nothing. *)
Lemma busy_ignores_clicks st :
  deleting st = true →
  step st ClickDeleteAll = st ∧ step st ClickDeleteSelected = st
  ∧ ∀ conv, step st (ClickTrash conv) = st.
Proof.
  intros Hd. simpl. rewrite Hd. split_and!.
  - by rewrite andb_false_r.
  - by rewrite orb_true_r, andb_false_r.
  - intros conv. destruct (convSessionId conv); [|done].
    by rewrite !andb_false_r.
Qed.

(** A call and its answer, with nothing in between. *)
Lemma call_then_answer sessionIds ok st :
  step (callDelete sessionIds st) (DeleteAnswered (length (deleteCalls st)) ok)
  = delete_settled (mkDeleteCall sessionIds (activeSessionId st)) ok
      (set_deleting true (deleteCalls st) st).
Proof.
  unfold step. cbn [deleteCalls callDelete set_deleting].
  rewrite list_lookup_middle by done. by rewrite delete_middle, app_nil_r.
Qed.

End AppFacts.

(** ** The log route *)

Module LogsFacts.
Import Mongo Routes SearchSpec.

Lemma matches_in_strings ids s :
  matches_in (map JString ids) (Some s) = bool_decide (s ∈ ids).
Proof.
  induction ids as [|i ids IH]; simpl; [done|].
  rewrite IH. destruct (String.eqb_spec i s) as [->|Hne]; simpl.
  - by rewrite bool_decide_eq_true_2 by left.
  - apply bool_decide_ext. rewrite elem_of_cons. naive_solver.
Qed.

Lemma hasNullSessions_spec (rs : list SessionGroup) :
  existsb (λ s, bool_decide (_id s = None)) rs = bool_decide (None ∈ _id <$> rs).
Proof.
  induction rs as [|r rs IH]; [done|].
  cbn [existsb]. rewrite fmap_cons, IH.
  destruct (decide (_id r = None)) as [H|H].
  - rewrite H. by rewrite !bool_decide_eq_true_2 by (done || left).
  - rewrite (bool_decide_eq_false_2 _ H). simpl.
    apply bool_decide_ext. rewrite elem_of_cons. naive_solver.
Qed.

Lemma elem_of_sessionIds (rs : list SessionGroup) s :
  s ∈ omap _id rs ↔ Some s ∈ _id <$> rs.
Proof.
  rewrite list_elem_of_omap, list_elem_of_fmap. naive_solver.
Qed.

(** The history branch returns the documents of the selected groups,
    the documents without a session being those of the group [None]. *)
Lemma history_logs_groups c :
  history_logs c
  = sort_desc createdAt
      (List.filter (λ d, bool_decide (sessionId d ∈ _id <$> recentSessions c)) c).
Proof.
  unfold history_logs, find_sorted. f_equal. apply List.filter_ext. intros d.
  rewrite hasNullSessions_spec. unfold is_null, exists_.
  destruct (sessionId d) as [s|].
  - rewrite matches_in_strings.
    rewrite (bool_decide_eq_false_2 (Some s = None)) by done.
    rewrite (bool_decide_eq_true_2 (Some s ≠ None)) by done.
    rewrite !orb_false_r.
    assert (bool_decide (s ∈ omap _id (recentSessions c))
            = bool_decide (Some s ∈ _id <$> recentSessions c)) as ->.
    { apply bool_decide_ext, elem_of_sessionIds. }
    by destruct (bool_decide (None ∈ _id <$> recentSessions c)).
  - rewrite DeleteFacts.matches_in_strings_None.
    rewrite (bool_decide_eq_true_2 (None = None)) by done. simpl.
    by destruct (bool_decide (None ∈ _id <$> recentSessions c)).
Qed.



(** One group per distinct value of [sessionId], [None] included. *)
Lemma group_by_session_ids c :
  _id <$> group_by_session c = Util.distinct (sessionId <$> c).
Proof.
  unfold group_by_session.
  change (sessionId <$> c) with (map sessionId c).
  induction (Util.distinct (map sessionId c)) as [|k ks IH]; [done|].
  simpl. f_equal. exact IH.
Qed.


Section Search.
Variable regex_i : string → option (string → bool).



End Search.

End LogsFacts.

(** * The claims of the design document *)

Module Claims.
Import Mongo Routes App Examples.



(** C2 (as amended). The number of summaries is the number of distinct
    non-empty [sessionId]s plus the number of records whose [sessionId]
    is absent, null or empty. *)
Theorem summary_count (getTime : string → option Z) (historyItems : list LogItem) :
  length <$> Sidebar.conversations getTime historyItems
  = Some (size (list_to_set (omap GroupingSpec.nonempty_session historyItems) : gset string)
          + length (List.filter (GroupingSpec.is_legacy GroupingSpec.nonempty_session)
                      historyItems)).
Proof.
  rewrite GroupingFacts.conversations_grouping. simpl.
  by rewrite GroupingFacts.grouping_length.
Qed.

(** C2 as stated counts the distinct non-null [sessionId]s: one for two
    records with the empty string, where the sidebar shows two rows. *)
Lemma blank_sessionId_counts_twice :
  length <$> Sidebar.conversations IsoClock.getTime blank_sessions = Some 2
  ∧ size (list_to_set (omap sessionId blank_sessions) : gset string)
    + length (List.filter (λ r, bool_decide (sessionId r = None)) blank_sessions) = 1.
Proof. split; vm_compute; reflexivity. Qed.



(** C4. The answer to a deletion is handled by the render that took the
    click, with the [sessionId] of that render. With session A open, the
    deletion of B is requested, B is opened, and the deletion succeeds: B
    stays the active session although it is among the deleted ones. With
    B open, the deletion of B is requested, A is opened, and the deletion
    succeeds: the chat is reset although A is not among the deleted
    ones. *)
Theorem success_reads_the_session_of_the_click :
  activeSessionId (run initial [ClickRow convA; ClickTrash convB; ClickRow convB;
                                DeleteAnswered 0 true]) = Some "B"
  ∧ activeSessionId (run initial [ClickRow convB; ClickTrash convB; ClickRow convA;
                                  DeleteAnswered 0 true]) = None.
Proof. split; reflexivity. Qed.

(** C5. The route deletes by [sessionId] only when [sessionIds] is an
    array with at least one element; for an empty array, a missing field
    or any other value it deletes every record of the collection. *)
Theorem delete_branches (sessionIds : option JSON) (c : Collection) :
  match sessionIds with
  | Some (JArray (v :: vs)) =>
      delete_logs sessionIds c = deleteMany (λ d, matches_in (v :: vs) (sessionId d)) c
  | _ => delete_logs sessionIds c = (length c, [])
  end.
Proof.
  destruct sessionIds as [[| | | |[|v vs]|]|]; simpl;
    try done; apply DeleteFacts.deleteMany_all.
Qed.

(** C6. When the deletion call fails, the state after the answer is the
    state before the call (with the busy flag down, as it was for any
    call the sidebar lets through): selection mode, the selected keys,
    the active session, the messages and the history version are what
    they were. Whenever the failure arrives, it changes none of them. *)
Theorem failed_deletion_leaves_state (sessionIds : option (list string)) (st : State) :
  let st' := step (callDelete sessionIds st) (DeleteAnswered (length (deleteCalls st)) false) in
  st' = (if deleting st then set_deleting false (deleteCalls st) st else st)
  ∧ deleting st' = false
  ∧ ∀ n, let st'' := step st (DeleteAnswered n false) in
         selectionMode st'' = selectionMode st
         ∧ selectedKeys st'' = selectedKeys st
         ∧ activeSessionId st'' = activeSessionId st
         ∧ messages st'' = messages st
         ∧ historyVersion st'' = historyVersion st.
Proof.
  intros st'. subst st'. rewrite AppFacts.call_then_answer. split_and!.
  - unfold delete_settled. destruct (deleting st) eqn:Hd; [done|].
    destruct st. simpl in *. by rewrite Hd.
  - done.
  - intros n. simpl. by destruct (deleteCalls st !! n).
Qed.

(** C7. The answers of two searches arrive in the other order: "a" is
    typed and sent, "ab" is typed and sent, the answer for "ab" arrives,
    then the answer for "a". The list shows the results for "a" under the
    query "ab". *)
Theorem late_answer_overwrites_results :
  let st := run initial [SelectTab search; TypeQuery "a"; DebounceElapsed;
                         TypeQuery "ab"; DebounceElapsed;
                         SearchAnswered 1 (Some found_ab);
                         SearchAnswered 0 (Some found_a)] in
  query st = "ab" ∧ searchResults st = found_a ∧ historyItems st = found_a.
Proof. vm_compute. done. Qed.







(** C10. Whatever the events since the page was mounted, at most one
    deletion call waits for its answer, and while one does, a click on
    "Delete all", on "Delete selected" or on the bin of a row changes
    nothing and sends nothing. *)
Theorem one_deletion_at_a_time (events : list Event) :
  let st := run initial events in
  length (deleteCalls st) ≤ 1
  ∧ (deleteCalls st = []
     ∨ (step st ClickDeleteAll = st ∧ step st ClickDeleteSelected = st
        ∧ ∀ conv, step st (ClickTrash conv) = st)).
Proof.
  intros st.
  destruct (AppFacts.one_in_flight_run initial events AppFacts.one_in_flight_initial)
    as [Hlen Hbusy].
  split; [done|].
  destruct (deleting st) eqn:Hd.
  - right. by apply AppFacts.busy_ignores_clicks.
  - left. by apply Hbusy.
Qed.

End Claims.

(** * The rest of the sidebar, the page and the routes *)

(** ** Lists and filters *)

Module ListFacts.

Section Filter.
Context {A : Type}.
Implicit Types (P Q : A → bool) (l : list A).

Lemma filter_ext P Q l : (∀ x, P x = Q x) → List.filter P l = List.filter Q l.
Proof. intros H. induction l as [|x l IH]; simpl; [done|]. by rewrite H, IH. Qed.

Lemma filter_ext_in P Q l : (∀ x, x ∈ l → P x = Q x) → List.filter P l = List.filter Q l.
Proof.
  intros H. induction l as [|x l IH]; simpl; [done|].
  rewrite H by left. rewrite IH; [done|]. intros y Hy. apply H. by right.
Qed.

Lemma filter_length_negb P l :
  length (List.filter P l) + length (List.filter (λ x, negb (P x)) l) = length l.
Proof. induction l as [|x l IH]; simpl; [done|]. destruct (P x); simpl; lia. Qed.

Lemma filter_none P l : Forall (λ x, P x = false) l → List.filter P l = [].
Proof. induction 1 as [|x l Hx _ IH]; simpl; [done|]. by rewrite Hx. Qed.

Lemma filter_all P l : Forall (λ x, P x = true) l → List.filter P l = l.
Proof. induction 1 as [|x l Hx _ IH]; simpl; [done|]. by rewrite Hx, IH. Qed.

Lemma filter_filter P Q l :
  List.filter P (List.filter Q l) = List.filter (λ x, Q x && P x) l.
Proof.
  induction l as [|x l IH]; simpl; [done|].
  destruct (Q x); simpl; [destruct (P x)|]; by rewrite IH.
Qed.

Lemma filter_idemp P l : List.filter P (List.filter P l) = List.filter P l.
Proof.
  rewrite filter_filter. apply filter_ext. intros x. by destruct (P x).
Qed.

Lemma elem_of_filter P l x : x ∈ List.filter P l ↔ x ∈ l ∧ P x = true.
Proof. rewrite !list_elem_of_In. apply filter_In. Qed.

Lemma filter_sublist P l : List.filter P l `sublist_of` l.
Proof.
  induction l as [|x l IH]; simpl; [done|].
  destruct (P x); by constructor.
Qed.

End Filter.

End ListFacts.

(** ** Selection and deletion in the sidebar *)

Module SelectionFacts.
Import Mongo Routes App Invariants Views.

(** Whether the record belongs to one of the sessions named by [keys]. *)
Lemma matches_in_elem (ids : list string) (field : option string) :
  matches_in (map JString ids) field
  = match field with
    | Some s => bool_decide (s ∈ ids)
    | None => false
    end.
Proof.
  destruct field as [s|].
  - apply LogsFacts.matches_in_strings.
  - apply DeleteFacts.matches_in_strings_None.
Qed.

Lemma selection_step st e :
  (selectionMode st = true ∨ selectedKeys st = ∅) →
  selectionMode (step st e) = true ∨ selectedKeys (step st e) = ∅.
Proof.
  intros Hinv. destruct e; simpl; try done.
  - by destruct (tab st); [|unfold handleSearch; case_match].
  - by destruct (debounce st).
  - by destruct (searchCalls st !! n); [destruct outcome|].
  - by destruct (tab st).
  - destruct (selectionMode st) eqn:Hm; simpl; by left.
  - destruct (selectionMode st) eqn:Hm; simpl; [by right|].
    destruct Hinv as [?|?]; [congruence|by right].
  - destruct (selectionMode st) eqn:Hm; simpl; [by left|].
    destruct Hinv as [?|?]; [congruence|by right].
  - destruct (convSessionId conv) as [sid|]; [|done].
    by destruct (negb (selectionMode st) && JS.truthy sid && negb (deleting st)).
  - by destruct (selectionMode st
                 && negb (bool_decide (size (selectedKeys st) = 0) || deleting st)).
  - by destruct (selectionMode st && negb (deleting st)).
  - destruct (deleteCalls st !! n) as [call|]; [|done].
    unfold delete_settled. destruct ok; [by right|done].
Qed.

Lemma busy_step st e :
  one_in_flight st → deleting st = bool_decide (deleteCalls st ≠ []) →
  deleting (step st e) = bool_decide (deleteCalls (step st e) ≠ []).
Proof.
  intros [Hlen _] Hinv. destruct e; simpl; try done.
  - by destruct (tab st); [|unfold handleSearch; case_match].
  - by destruct (debounce st).
  - by destruct (searchCalls st !! n); [destruct outcome|].
  - by destruct (tab st).
  - by destruct (selectionMode st).
  - by destruct (selectionMode st).
  - by destruct (selectionMode st).
  - destruct (convSessionId conv) as [sid|]; [|done].
    destruct (negb (selectionMode st) && JS.truthy sid && negb (deleting st)); [|done].
    simpl. symmetry. apply bool_decide_eq_true. by destruct (deleteCalls st).
  - destruct (selectionMode st
              && negb (bool_decide (size (selectedKeys st) = 0) || deleting st)); [|done].
    simpl. symmetry. apply bool_decide_eq_true. by destruct (deleteCalls st).
  - destruct (selectionMode st && negb (deleting st)); [|done].
    simpl. symmetry. apply bool_decide_eq_true. by destruct (deleteCalls st).
  - destruct (deleteCalls st !! n) as [call|] eqn:Hn; [|done].
    assert (delete n (deleteCalls st) = []) as Hnil.
    { destruct (deleteCalls st) as [|c [|c' l]]; simpl in *; [done| |lia].
      by destruct n. }
    rewrite AppFacts.delete_settled_calls. simpl. by rewrite Hnil.
Qed.

Lemma history_step st e : historyVersion st ≤ historyVersion (step st e).
Proof.
  destruct e; simpl; try done.
  - by destruct (tab st); [|unfold handleSearch; case_match].
  - by destruct (debounce st).
  - by destruct (searchCalls st !! n); [destruct outcome|].
  - destruct (tab st); simpl; lia.
  - by destruct (selectionMode st).
  - by destruct (selectionMode st).
  - by destruct (selectionMode st).
  - destruct (convSessionId conv) as [sid|]; [|done].
    by destruct (negb (selectionMode st) && JS.truthy sid && negb (deleting st)).
  - by destruct (selectionMode st
                 && negb (bool_decide (size (selectedKeys st) = 0) || deleting st)).
  - by destruct (selectionMode st && negb (deleting st)).
  - destruct (deleteCalls st !! n) as [call|]; [|done].
    unfold delete_settled, handleDeleteChats. destruct ok; [|done].
    repeat case_match; simpl; lia.
Qed.

Lemma targets_step st e :
  Forall (λ call, target call ≠ Some []) (deleteCalls st) →
  Forall (λ call, target call ≠ Some []) (deleteCalls (step st e)).
Proof.
  intros Hinv.
  assert (∀ ids, ids ≠ Some [] →
                 Forall (λ call, target call ≠ Some []) (deleteCalls (callDelete ids st))) as Hcall.
  { intros ids Hids. simpl. apply Forall_app. split; [done|]. by constructor. }
  destruct e; simpl; try done.
  - by destruct (tab st); [|unfold handleSearch; case_match].
  - by destruct (debounce st).
  - by destruct (searchCalls st !! n); [destruct outcome|].
  - by destruct (tab st).
  - by destruct (selectionMode st).
  - by destruct (selectionMode st).
  - by destruct (selectionMode st).
  - destruct (convSessionId conv) as [sid|]; [|done]. case_match; [|done]. by apply Hcall.
  - case_match eqn:Hc; [|done]. apply Hcall.
    apply andb_true_iff in Hc as [_ Hc]. apply negb_true_iff, orb_false_iff in Hc as [Hc _].
    apply bool_decide_eq_false in Hc. intros [= He]. apply Hc.
    apply elements_empty_inv in He. by rewrite He, size_empty.
  - case_match; [|done]. by apply Hcall.
  - destruct (deleteCalls st !! n) as [call|] eqn:Hn; [|done].
    rewrite AppFacts.delete_settled_calls. simpl.
    apply Forall_forall. intros c' Hc'. rewrite Forall_forall in Hinv. apply Hinv.
    by eapply list_elem_of_delete_inv.
Qed.

Lemma listed_sessions_spec (id : string) (ids : list string) (c : Collection) :
  let body := delete_body (Some (id :: ids)) in
  let deleted := (delete_logs body c).1 in
  let kept := (delete_logs body c).2 in
  kept = List.filter (λ d, negb (in_ids (id :: ids) d)) c
  ∧ (∀ d, d ∈ kept ↔ d ∈ c ∧ ∀ s, sessionId d = Some s → s ∉ id :: ids)
  ∧ deleted + length kept = length c
  ∧ delete_logs body kept = (0, kept).
Proof.
  intros body deleted kept. subst body deleted kept.
  rewrite !DeleteFacts.delete_logs_strings. unfold deleteMany. cbn [fst snd].
  assert (∀ d, matches_in (map JString (id :: ids)) (sessionId d) = in_ids (id :: ids) d) as Hm.
  { intros d. by rewrite matches_in_elem. }
  rewrite !(ListFacts.filter_ext (λ d, matches_in (map JString (id :: ids)) (sessionId d))
              (in_ids (id :: ids))) by done.
  rewrite !(ListFacts.filter_ext (λ d, negb (matches_in (map JString (id :: ids)) (sessionId d)))
              (λ d, negb (in_ids (id :: ids) d))) by (intros d; by rewrite Hm).
  split_and!.
  - done.
  - intros d. rewrite ListFacts.elem_of_filter.
    unfold in_ids. split; intros [Hd H]; (split; [done|]).
    + intros s Hs. rewrite Hs in H. by apply negb_true_iff, bool_decide_eq_false in H.
    + destruct (sessionId d) as [s|]; [|done].
      apply negb_true_iff, bool_decide_eq_false. by apply H.
  - apply ListFacts.filter_length_negb.
  - f_equal.
    + apply length_zero_iff_nil, ListFacts.filter_none.
      apply Forall_forall. intros d Hd.
      apply ListFacts.elem_of_filter in Hd as [_ Hd]. by apply negb_true_iff.
    + apply ListFacts.filter_idemp.
Qed.

End SelectionFacts.

(** ** What the grouping pass keeps *)

Module PartitionFacts.
Import Util GroupingSpec Sidebar Invariants Views.

Lemma filter_split {A} (P Q : A → bool) l :
  (∀ x, P x = true → Q x = true → False) →
  List.filter (λ x, P x || Q x) l ≡ₚ List.filter P l ++ List.filter Q l.
Proof.
  intros Hdis. induction l as [|x l IH]; simpl; [done|].
  destruct (P x) eqn:HP, (Q x) eqn:HQ; simpl.
  - by destruct (Hdis x).
  - by rewrite IH.
  - rewrite IH. apply Permutation_middle.
  - done.
Qed.

(** The records of the sessions named by [ids]. *)

Lemma sessions_concat ids items :
  NoDup ids →
  mjoin (map (λ sid, List.filter (in_session nonempty_session sid) items) ids)
  ≡ₚ List.filter (in_sessions ids) items.
Proof.
  induction 1 as [|k ids Hk Hids IH]; cbn [map mjoin list_join].
  - induction items as [|r items IHi]; [done|].
    cbn [List.filter]. replace (in_sessions [] r) with false; [done|].
    unfold in_sessions. destruct (nonempty_session r); [|done].
    symmetry. apply bool_decide_eq_false. apply not_elem_of_nil.
  - rewrite IH, <- filter_split.
    + erewrite List.filter_ext; [done|]. intros r. unfold in_session, in_sessions.
      destruct (nonempty_session r) as [s|]; [|done].
      destruct (String.eqb_spec s k) as [->|Hne]; simpl.
      * by rewrite bool_decide_eq_true_2 by left.
      * apply bool_decide_ext. set_solver.
    + intros r H1 H2. apply GroupingFacts.in_session_nonempty in H1.
      unfold in_sessions in H2. rewrite H1 in H2.
      by apply bool_decide_eq_true in H2.
Qed.

Lemma legacy_allLogs i items :
  mjoin (allLogs <$> legacy_summaries nonempty_session i items)
  = List.filter (is_legacy nonempty_session) items.
Proof.
  revert i. induction items as [|r items IH]; intros i; simpl; [done|].
  rewrite fmap_app, join_app, IH. by destruct (is_legacy nonempty_session r).
Qed.

(** Before the final sort, the summaries hold each record once. *)
Lemma summaries_partition (getTime : string → option Z) items :
  mjoin (allLogs <$> (map (session_summary getTime nonempty_session items)
                          (session_ids nonempty_session items)
                      ++ legacy_summaries nonempty_session 0 items))
  ≡ₚ items.
Proof.
  rewrite fmap_app, join_app, legacy_allLogs.
  assert (mjoin (allLogs <$> map (session_summary getTime nonempty_session items)
                               (session_ids nonempty_session items))
          ≡ₚ List.filter (in_sessions (session_ids nonempty_session items)) items) as ->.
  { rewrite <- sessions_concat by apply GroupingFacts.NoDup_distinct.
    induction (session_ids nonempty_session items) as [|sid ids IH]; simpl; [done|].
    rewrite IH. by rewrite SortFacts.stable_sort_Permutation. }
  rewrite <- filter_split.
  - erewrite List.filter_ext_in; [|intros r Hr; instantiate (1 := λ _, true)].
    + clear. induction items as [|r items IH]; simpl; [done|by constructor].
    + unfold in_sessions, is_legacy, session_ids.
      destruct (nonempty_session r) as [s|] eqn:Hs; [|done].
      rewrite orb_false_r. apply bool_decide_eq_true, GroupingFacts.elem_of_distinct.
      apply list_elem_of_omap. exists r. split; [by apply list_elem_of_In|done].
  - intros r. unfold in_sessions, is_legacy. by destruct (nonempty_session r).
Qed.

Lemma session_summary_counts (getTime : string → option Z) items sid :
  sid ∈ omap nonempty_session items →
  let c := session_summary getTime nonempty_session items sid in
  msgCount c = length (allLogs c) ∧ 1 ≤ msgCount c
  ∧ convSessionId c = Some (key c)
  ∧ Forall (λ r, sessionId r = Some (key c)) (allLogs c).
Proof.
  intros Hin c. subst c. unfold session_summary. cbn [msgCount allLogs convSessionId key].
  rewrite SortFacts.stable_sort_length. split_and!; [done| |done|].
  - pose proof (GroupingFacts.members_nonempty items sid Hin).
    destruct (List.filter (in_session nonempty_session sid) items); [done|simpl; lia].
  - apply Forall_forall. intros r Hr.
    rewrite SortFacts.stable_sort_Permutation in Hr.
    apply list_elem_of_In, filter_In in Hr as [_ Hr].
    apply GroupingFacts.in_session_nonempty in Hr.
    unfold nonempty_session in Hr. destruct (sessionId r) as [s|]; [|done].
    destruct (JS.truthy s); naive_solver.
Qed.

(** The synthetic keys of the legacy rows carry distinct positions. *)
Lemma legacy_keys i items c :
  c ∈ legacy_summaries nonempty_session i items →
  ∃ j r, i ≤ j ∧ c = legacy_summary j r ∧ r ∈ items ∧ is_legacy nonempty_session r = true.
Proof.
  revert i. induction items as [|r items IH]; intros i; simpl; [by intros ?%elem_of_nil|].
  intros [Hc|Hc]%elem_of_app.
  - destruct (is_legacy nonempty_session r) eqn:Hl; [|by apply elem_of_nil in Hc].
    apply list_elem_of_singleton in Hc as ->. exists i, r. split_and!; [lia|done|by left|done].
  - destruct (IH _ Hc) as (j & r' & Hj & -> & Hr' & Hl).
    exists j, r'. split_and!; [lia|done|by right|done].
Qed.

Lemma legacy_keys_NoDup i items :
  NoDup (key <$> legacy_summaries nonempty_session i items).
Proof.
  revert i. induction items as [|r items IH]; intros i; simpl; [constructor|].
  rewrite fmap_app. apply NoDup_app. split_and!; [|intros k Hk Hk'|apply IH].
  - destruct (is_legacy nonempty_session r); simpl; [|constructor].
    apply NoDup_singleton.
  - destruct (is_legacy nonempty_session r); [|by apply elem_of_nil in Hk].
    apply list_elem_of_singleton in Hk as ->.
    apply list_elem_of_fmap in Hk' as (c & Hkey & Hc).
    destruct (legacy_keys _ _ _ Hc) as (j & r' & Hj & -> & _).
    simpl in Hkey. apply (inj (String.app "legacy-")) in Hkey.
    apply (inj pretty) in Hkey. lia.
Qed.

Lemma nonempty_session_truthy r sid :
  nonempty_session r = Some sid → sessionId r = Some sid ∧ JS.truthy sid = true.
Proof.
  unfold nonempty_session. destruct (sessionId r) as [s|]; [|done].
  destruct (JS.truthy s) eqn:Ht; [|done]. by intros [= <-].
Qed.

Lemma nonempty_session_None r : nonempty_session r = None → JS.truthy_opt (sessionId r) = false.
Proof.
  unfold nonempty_session. destruct (sessionId r) as [s|]; [|done].
  simpl. by destruct (JS.truthy s).
Qed.

(** What a summary of the pass looks like. *)
Lemma summaries_shape getTime items :
  Forall (λ c, (∃ sid, key c = sid ∧ convSessionId c = Some sid ∧ JS.truthy sid = true
                       ∧ msgCount c = length (allLogs c) ∧ 1 ≤ length (allLogs c)
                       ∧ Forall (λ r, sessionId r = Some sid) (allLogs c))
               ∨ (∃ r, r ∈ items ∧ allLogs c = [r] ∧ convSessionId c = None
                       ∧ JS.truthy_opt (sessionId r) = false ∧ msgCount c = 1))
    (map (session_summary getTime nonempty_session items) (session_ids nonempty_session items)
     ++ legacy_summaries nonempty_session 0 items).
Proof.
  apply Forall_app. split; apply Forall_forall; intros c Hc.
  - left. apply list_elem_of_fmap in Hc as (sid & -> & Hsid).
    unfold session_ids in Hsid. rewrite GroupingFacts.elem_of_distinct in Hsid.
    destruct (session_summary_counts getTime items sid Hsid) as (Hn & H1 & Hs & Hall).
    exists sid. split_and!; try done.
    + apply list_elem_of_omap in Hsid as (r & _ & Hr).
      by apply nonempty_session_truthy in Hr as [_ ?].
    + by rewrite <- Hn.
  - right. destruct (legacy_keys _ _ _ Hc) as (j & r & _ & -> & Hr & Hl).
    exists r. split_and!; try done.
    apply nonempty_session_None. unfold is_legacy in Hl.
    by destruct (nonempty_session r).
Qed.

Lemma session_summary_ids getTime items ids :
  omap convSessionId (map (session_summary getTime nonempty_session items) ids) = ids
  ∧ key <$> map (session_summary getTime nonempty_session items) ids = ids.
Proof. induction ids as [|sid ids [IH1 IH2]]; [done|]. split; simpl; by f_equal. Qed.

Lemma sessions_NoDup getTime items :
  NoDup (omap convSessionId
           (map (session_summary getTime nonempty_session items)
                (session_ids nonempty_session items)
            ++ legacy_summaries nonempty_session 0 items)).
Proof.
  rewrite omap_app.
  replace (omap convSessionId (legacy_summaries nonempty_session 0 items)) with (@nil string).
  - rewrite app_nil_r, (proj1 (session_summary_ids _ _ _)).
    apply GroupingFacts.NoDup_distinct.
  - generalize 0. induction items as [|r items IH]; intros i; simpl; [done|].
    rewrite omap_app, <- IH, app_nil_r. by destruct (is_legacy nonempty_session r).
Qed.

Lemma prefix_app (a b : string) : String.prefix a (a +:+ b) = true.
Proof.
  induction a as [|ch a IH]; simpl; [by destruct b|].
  destruct (Ascii.ascii_dec ch ch); [done|congruence].
Qed.

Lemma keys_NoDup getTime items :
  Forall (λ r, ∀ s, sessionId r = Some s → String.prefix "legacy-" s = false) items →
  NoDup (key <$> (map (session_summary getTime nonempty_session items)
                      (session_ids nonempty_session items)
                  ++ legacy_summaries nonempty_session 0 items)).
Proof.
  intros Hfree. rewrite fmap_app. apply NoDup_app. split_and!.
  - rewrite (proj2 (session_summary_ids _ _ _)). apply GroupingFacts.NoDup_distinct.
  - intros k Hk Hk'.
    apply list_elem_of_fmap in Hk as (c & -> & Hc).
    apply list_elem_of_fmap in Hc as (sid & -> & Hsid). simpl in Hk'.
    unfold session_ids in Hsid. rewrite GroupingFacts.elem_of_distinct in Hsid.
    apply list_elem_of_omap in Hsid as (r & Hr & Hsid).
    apply nonempty_session_truthy in Hsid as [Hsid _].
    rewrite Forall_forall in Hfree. pose proof (Hfree r Hr sid Hsid) as Hp.
    apply list_elem_of_fmap in Hk' as (c & Hkey & Hc).
    destruct (legacy_keys _ _ _ Hc) as (j & r' & _ & -> & _).
    simpl in Hkey. subst sid.
    change (String.prefix "legacy-" ("legacy-" +:+ pretty j) = false) in Hp.
    by rewrite prefix_app in Hp.
  - apply legacy_keys_NoDup.
Qed.

End PartitionFacts.

(** ** Queries of the logs route *)

Module FindFacts.
Import Mongo Routes Views.

(** [find(filter).sort({ createdAt: -1 }).limit(n)] returns the [n]
    latest of the matching documents. *)
Lemma find_sorted_latest (filter : LogItem → bool) (n : nat) (c : Collection) :
  let matching := List.filter filter c in
  let found := find_sorted filter (Some n) c in
  found ⊆+ matching
  ∧ length found = min n (length matching)
  ∧ StronglySorted (λ a b, (createdAt b ≤ createdAt a)%string) found
  ∧ Forall (λ d, d ∈ found ∨ Forall (λ d', (createdAt d ≤ createdAt d')%string) found) matching.
Proof.
  intros matching found. subst found. unfold find_sorted. fold matching.
  set (s := sort_desc createdAt matching).
  pose proof (SortFacts.sort_desc_sorted createdAt matching) as Hs. fold s in Hs.
  split_and!.
  - etrans; [apply submseteq_take|]. unfold s. by rewrite SortFacts.sort_desc_Permutation.
  - rewrite length_take. unfold s, sort_desc. by rewrite SortFacts.stable_sort_length.
  - rewrite <- (take_drop n s) in Hs. by apply StronglySorted_app_1_l in Hs.
  - rewrite <- (SortFacts.sort_desc_Permutation createdAt matching). fold s.
    rewrite <- (take_drop n s) in Hs.
    apply Forall_forall. intros g Hg.
    rewrite <- (take_drop n s) in Hg. apply elem_of_app in Hg as [Hg|Hg]; [by left|].
    right. apply Forall_forall. intros g' Hg'.
    by apply (StronglySorted_app_1_elem_of _ _ _ g' g Hs).
Qed.

Lemma elem_of_history_logs c d :
  d ∈ history_logs c ↔ d ∈ c ∧ sessionId d ∈ _id <$> recentSessions c.
Proof.
  rewrite LogsFacts.history_logs_groups, SortFacts.sort_desc_Permutation.
  rewrite ListFacts.elem_of_filter. by rewrite bool_decide_eq_true.
Qed.

Lemma history_logs_complete c :
  length (Util.distinct (sessionId <$> c)) ≤ 50 → history_logs c ≡ₚ c.
Proof.
  intros Hfew. rewrite LogsFacts.history_logs_groups, SortFacts.sort_desc_Permutation.
  rewrite ListFacts.filter_all; [done|].
  apply Forall_forall. intros d Hd. apply bool_decide_eq_true.
  unfold recentSessions. rewrite take_ge.
  - rewrite SortFacts.sort_desc_Permutation, LogsFacts.group_by_session_ids.
    apply GroupingFacts.elem_of_distinct, list_elem_of_fmap. eauto.
  - unfold sort_desc. rewrite SortFacts.stable_sort_length.
    by rewrite <- (length_fmap _id), LogsFacts.group_by_session_ids.
Qed.

End FindFacts.

(** ** Grouping what a deletion leaves *)

Module RegroupFacts.
Import Util GroupingSpec Sidebar Invariants Views Mongo Routes.

Section SortFilter.
Context {A : Type} (after : A → A → bool) (rank : A → Z) (keep : A → bool).

Lemma insert_sorted_head x l :
  (∀ z, z ∈ l → after x z = false) → JS.insert_sorted after x l = x :: l.
Proof. destruct l as [|y l]; [done|]. intros H. simpl. by rewrite H by left. Qed.

Lemma filter_insert_sorted x l :
  (∀ y, y ∈ l → after x y = (rank y <? rank x)%Z) →
  StronglySorted (λ a b, (rank a ≤ rank b)%Z) l →
  List.filter keep (JS.insert_sorted after x l)
  = if keep x then JS.insert_sorted after x (List.filter keep l) else List.filter keep l.
Proof.
  intros Hx Hs. induction Hs as [|y l Hs IH Hy]; [done|].
  cbn [JS.insert_sorted]. destruct (after x y) eqn:Ha.
  - cbn [List.filter]. rewrite IH by (intros; apply Hx; by right).
    destruct (keep x), (keep y); try done. cbn [JS.insert_sorted]. by rewrite Ha.
  - cbn [List.filter]. destruct (keep x); [|done].
    symmetry. apply insert_sorted_head. intros z Hz.
    assert (z ∈ y :: l) as Hz'.
    { destruct (keep y).
      - apply elem_of_cons in Hz as [->|Hz]; [by left|right].
        by apply ListFacts.elem_of_filter in Hz as [? _].
      - right. by apply ListFacts.elem_of_filter in Hz as [? _]. }
    rewrite (Hx z Hz'). rewrite (Hx y) in Ha by left.
    apply Z.ltb_ge in Ha. apply Z.ltb_ge.
    apply elem_of_cons in Hz' as [->|Hz']; [done|].
    rewrite Forall_forall in Hy. specialize (Hy z Hz'). lia.
Qed.

Lemma filter_stable_sort l :
  ranked_on after rank l →
  List.filter keep (JS.stable_sort after l) = JS.stable_sort after (List.filter keep l).
Proof.
  induction l as [|x l IH]; intros H; [done|].
  pose proof (SortFacts.ranked_on_cons _ _ _ _ H) as Hl.
  change (JS.stable_sort after (x :: l)) with (JS.insert_sorted after x (JS.stable_sort after l)).
  rewrite filter_insert_sorted.
  - cbn [List.filter]. rewrite IH by done. by destruct (keep x).
  - intros y Hy. rewrite SortFacts.stable_sort_Permutation in Hy.
    apply H; [by left|by right].
  - apply (SortFacts.stable_sort_sorted _ (λ a, a ∈ l)).
    + intros a b Ha Hb E. rewrite Hl in E by done. apply Z.ltb_lt in E. lia.
    + intros a b Ha Hb E. rewrite Hl in E by done. by apply Z.ltb_ge in E.
    + intros a b c _ _ _. lia.
    + by apply Forall_forall.
Qed.
End SortFilter.

Section Distinct.
Context `{EqDecision A} (P : A → bool).

Lemma distinct_filter (l : list A) : distinct (List.filter P l) = List.filter P (distinct l).
Proof.
  induction l as [|x l IH]; [done|]. cbn [distinct List.filter].
  destruct (P x) eqn:HP.
  - cbn [distinct]. f_equal. rewrite IH, !ListFacts.filter_filter.
    apply ListFacts.filter_ext. intros y. apply andb_comm.
  - rewrite IH, ListFacts.filter_filter. apply ListFacts.filter_ext. intros y.
    case_bool_decide as Hy; [done|]. simpl.
    assert (y = x) as -> by (by destruct (decide (y = x))). done.
Qed.
End Distinct.

Lemma filter_map {A B} (f : A → B) (P : B → bool) l :
  List.filter P (map f l) = map f (List.filter (λ x, P (f x)) l).
Proof. induction l as [|x l IH]; simpl; [done|]. destruct (P (f x)); simpl; by rewrite IH. Qed.

Section Deleted.
Variable getTime : string → option Z.
Variable ids : list string.

Lemma omap_cons {A B} (f : A → option B) x l :
  omap f (x :: l) = match f x with Some y => y :: omap f l | None => omap f l end.
Proof. done. Qed.

Lemma sessions_left c :
  omap nonempty_session (List.filter (λ d, negb (in_ids ids d)) c)
  = List.filter (λ s, negb (bool_decide (s ∈ ids))) (omap nonempty_session c).
Proof.
  induction c as [|d c IH]; [done|]. cbn [List.filter]. rewrite (omap_cons _ d c).
  destruct (nonempty_session d) as [s|] eqn:Hn.
  - destruct (PartitionFacts.nonempty_session_truthy _ _ Hn) as [Hs _].
    assert (in_ids ids d = bool_decide (s ∈ ids)) as -> by (unfold in_ids; by rewrite Hs).
    cbn [List.filter]. destruct (bool_decide (s ∈ ids)); cbn [negb]; [done|].
    by rewrite omap_cons, Hn, IH.
  - destruct (in_ids ids d); cbn [negb]; [done|]. by rewrite omap_cons, Hn.
Qed.

Lemma members_left c sid :
  sid ∉ ids →
  List.filter (in_session nonempty_session sid) (List.filter (λ d, negb (in_ids ids d)) c)
  = List.filter (in_session nonempty_session sid) c.
Proof.
  intros Hsid. rewrite ListFacts.filter_filter. apply ListFacts.filter_ext. intros d.
  destruct (in_session nonempty_session sid d) eqn:Hin; [|by rewrite andb_false_r].
  rewrite andb_true_r. apply GroupingFacts.in_session_nonempty in Hin.
  apply PartitionFacts.nonempty_session_truthy in Hin as [Hin _].
  unfold in_ids. rewrite Hin. by rewrite bool_decide_eq_false_2.
Qed.

Lemma session_summaries_left c :
  map (session_summary getTime nonempty_session (List.filter (λ d, negb (in_ids ids d)) c))
      (session_ids nonempty_session (List.filter (λ d, negb (in_ids ids d)) c))
  = List.filter (λ v, negb (bool_decide (key v ∈ ids)))
      (map (session_summary getTime nonempty_session c) (session_ids nonempty_session c)).
Proof.
  unfold session_ids. rewrite sessions_left, distinct_filter, filter_map.
  cbn [key session_summary].
  apply map_ext_in. intros sid Hsid. apply filter_In in Hsid as [_ Hsid].
  apply negb_true_iff, bool_decide_eq_false in Hsid.
  unfold session_summary. by rewrite members_left.
Qed.

Lemma legacy_not_of_session i c :
  List.filter of_session (legacy_summaries nonempty_session i c) = [].
Proof.
  apply ListFacts.filter_none, Forall_forall. intros v Hv.
  by destruct (PartitionFacts.legacy_keys _ _ _ Hv) as (j & r & _ & -> & _).
Qed.

Lemma sessions_of_session c l :
  List.filter of_session (map (session_summary getTime nonempty_session c) l)
  = map (session_summary getTime nonempty_session c) l.
Proof. apply ListFacts.filter_all, Forall_forall. by intros v (sid & -> & _)%list_elem_of_fmap. Qed.

Lemma date_rank_ranked l :
  Forall (λ c, is_Some (getTime (date c))) l →
  ranked_on (λ a b, later getTime (date b) (date a)) (date_rank getTime) l.
Proof.
  rewrite Forall_forall. intros H x y Hx Hy.
  destruct (H x Hx) as [tx Ex], (H y Hy) as [ty Ey].
  unfold later, date_rank. rewrite Ex, Ey. simpl.
  destruct (Z.ltb_spec tx ty), (Z.ltb_spec (- ty) (- tx)); lia || done.
Qed.

Lemma summaries_dated c :
  Forall (λ r, is_Some (getTime (createdAt r))) c →
  Forall (λ v, is_Some (getTime (date v)))
    (map (session_summary getTime nonempty_session c) (session_ids nonempty_session c)
     ++ legacy_summaries nonempty_session 0 c).
Proof.
  intros H. apply Forall_app. split.
  - eapply Forall_impl; [by apply GroupingFacts.session_summaries_dated|]. by intros v [? _].
  - eapply Forall_impl; [by apply GroupingFacts.legacy_summaries_dated|]. by intros v [? _].
Qed.

(** The session rows of what is left are the session rows of before
    without the deleted sessions, in the same order. *)
Lemma session_rows_left c :
  Forall (λ r, is_Some (getTime (createdAt r))) c →
  List.filter of_session
    (grouping getTime nonempty_session (List.filter (λ d, negb (in_ids ids d)) c))
  = List.filter (λ v, of_session v && negb (bool_decide (key v ∈ ids)))
      (grouping getTime nonempty_session c).
Proof.
  intros Hdates.
  assert (Forall (λ r, is_Some (getTime (createdAt r)))
            (List.filter (λ d, negb (in_ids ids d)) c)) as Hdates'.
  { apply Forall_forall. intros r Hr. apply ListFacts.elem_of_filter in Hr as [Hr _].
    rewrite Forall_forall in Hdates. by apply Hdates. }
  unfold grouping.
  rewrite !(filter_stable_sort _ (date_rank getTime))
    by (apply date_rank_ranked; by apply summaries_dated).
  f_equal. rewrite !List.filter_app.
  rewrite legacy_not_of_session, sessions_of_session, session_summaries_left.
  f_equal.
  - rewrite <- ListFacts.filter_filter, sessions_of_session. done.
  - symmetry. apply ListFacts.filter_none, Forall_forall. intros v Hv.
    destruct (PartitionFacts.legacy_keys _ _ _ Hv) as (j & r & _ & -> & _). done.
Qed.
End Deleted.

End RegroupFacts.

(** ** The chat page *)

Module PageFacts.
Import Mongo Routes App Page Views.

Section Page.
Variable getTime : string → option Z.

Lemma one_chat_call_initial : one_chat_call initial.
Proof. split; [simpl; lia|done]. Qed.

Lemma one_chat_call_idle ps : one_chat_call ps → loading ps = false → chatCalls ps = [].
Proof.
  intros [_ H] Hl. rewrite Hl in H. symmetry in H. apply bool_decide_eq_false in H.
  by destruct (chatCalls ps); [|destruct H].
Qed.

Lemma one_chat_call_step ps e : one_chat_call ps → one_chat_call (step getTime ps e).
Proof.
  intros Hinv. pose proof Hinv as [Hlen Hload]. destruct e; simpl; try done.
  - by destruct (loading ps).
  - destruct (loading ps) eqn:Hl; [done|].
    pose proof (one_chat_call_idle ps Hinv Hl) as Hc.
    unfold sendMessage. destruct (JS.truthy (JS.trim (input ps))); [|done]. cbn [negb].
    destruct settings as [errorMessage|settings]; split; simpl; rewrite Hc; simpl; try done; lia.
  - destruct (chatCalls ps !! n) as [call|] eqn:Hn; [|done].
    assert (delete n (chatCalls ps) = []) as Hd.
    { apply length_zero_iff_nil. rewrite length_delete by eauto.
      apply lookup_lt_Some in Hn. lia. }
    destruct outcome; split; simpl; rewrite Hd; simpl; try done; lia.
Qed.

Lemma one_chat_call_run ps events : one_chat_call ps → one_chat_call (run getTime ps events).
Proof.
  revert ps. induction events as [|e events IH]; intros ps H; [done|].
  apply IH. by apply one_chat_call_step.
Qed.


End Page.

(** The first element of a sorted list that passes a test comes before
    every element that passes it. *)
Lemma find_sorted_first {A} (R : relation A) (P : A → bool) l x :
  StronglySorted R l → List.find P l = Some x →
  P x = true ∧ x ∈ l ∧ ∀ y, y ∈ l → P y = true → x = y ∨ R x y.
Proof.
  induction 1 as [|z l Hs IH Hz]; [done|]. simpl.
  destruct (P z) eqn:Hp.
  - intros [= <-]. split_and!; [done|by left|].
    intros y [->|Hy]%elem_of_cons _; [by left|right].
    rewrite Forall_forall in Hz. by apply Hz.
  - intros Hf. destruct (IH Hf) as (H1 & H2 & H3). split_and!; [done|by right|].
    intros y [->|Hy]%elem_of_cons Hy'; [congruence|by apply H3].
Qed.

Lemma find_none {A} (P : A → bool) l : List.find P l = None → Forall (λ x, P x = false) l.
Proof.
  induction l as [|x l IH]; simpl; [constructor|].
  destruct (P x) eqn:Hp; [done|]. intros H. constructor; auto.
Qed.

Lemma filter_Permutation {A} (P : A → bool) l l' :
  l ≡ₚ l' → List.filter P l ≡ₚ List.filter P l'.
Proof.
  induction 1 as [|x l l' _ IH|x y l|l l' l'' _ IH1 _ IH2]; simpl.
  - done.
  - destruct (P x); [by constructor|done].
  - destruct (P x), (P y); try done. by constructor.
  - by etrans.
Qed.

(** The records of a session the history fetch returns are the records
    of that session in the collection. *)
Lemma history_thread c r sid :
  r ∈ history_logs c → sessionId r = Some sid →
  List.filter (λ d, bool_decide (sessionId d = Some sid)) (history_logs c)
  ≡ₚ List.filter (λ d, bool_decide (sessionId d = Some sid)) c.
Proof.
  intros Hr Hsid. apply FindFacts.elem_of_history_logs in Hr as [_ Hr]. rewrite Hsid in Hr.
  rewrite LogsFacts.history_logs_groups.
  rewrite (filter_Permutation _ _ _ (SortFacts.sort_desc_Permutation _ _)).
  rewrite ListFacts.filter_filter.
  rewrite (ListFacts.filter_ext _ (λ d, bool_decide (sessionId d = Some sid))); [done|].
  intros d. destruct (decide (sessionId d = Some sid)) as [Hd|Hd].
  - rewrite (bool_decide_eq_true_2 (sessionId d = Some sid)) by done.
    rewrite andb_true_r. apply bool_decide_eq_true. by rewrite Hd.
  - rewrite (bool_decide_eq_false_2 (sessionId d = Some sid)) by done.
    by rewrite andb_false_r.
Qed.

End PageFacts.

(** ** The history loader *)

Module LoaderFacts.
Import HistoryLoader.

Lemma well_formed_initial : well_formed initial.
Proof. split_and!; [constructor|constructor|constructor|done]. Qed.

Lemma cancel_sentBy r reqs : sentBy <$> cancel r reqs = sentBy <$> reqs.
Proof.
  unfold cancel. induction reqs as [|q reqs IH]; [done|].
  cbn [map fmap list_fmap]. f_equal; [by case_bool_decide|exact IH].
Qed.

(** After the cleanup of the pending run no request is live. *)
Lemma cancel_all st :
  well_formed st → Forall (λ q, cancelled q = true) (cancel (cleanup st) (requests st)).
Proof.
  intros (_ & _ & Hlive & _). unfold cancel. rewrite Forall_forall in Hlive.
  apply Forall_forall. intros q' Hq'.
  apply list_elem_of_fmap in Hq' as (q & -> & Hq).
  case_bool_decide as Hc; [done|].
  destruct (cancelled q) eqn:E; [done|]. by rewrite (Hlive q Hq E) in Hc.
Qed.

Lemma cancel_bound r n reqs :
  Forall (λ q, sentBy q < n) reqs → Forall (λ q, sentBy q < n) (cancel r reqs).
Proof.
  rewrite !Forall_forall. intros H q' Hq'.
  apply list_elem_of_fmap in Hq' as (q & -> & Hq).
  case_bool_decide; simpl; by apply H.
Qed.

Lemma well_formed_effect isOpen settingsParse st :
  well_formed st → well_formed (effect isOpen settingsParse st).
Proof.
  intros Hwf. pose proof (cancel_all st Hwf) as Hall.
  destruct Hwf as (Hsorted & Hbound & Hlive & Hlast).
  pose proof (cancel_bound (cleanup st) _ _ Hbound) as Hbound'.
  unfold effect. destruct isOpen; cbn [negb]; [destruct settingsParse|].
  - split_and!; cbn [requests runs cleanup]; [| | |by intros k [= <-]].
    + rewrite fmap_app, cancel_sentBy. apply StronglySorted_app_2; [|done|repeat constructor].
      intros x y Hx Hy. apply list_elem_of_singleton in Hy as ->.
      apply list_elem_of_fmap in Hx as (q & -> & Hq).
      rewrite Forall_forall in Hbound. by apply Hbound.
    + apply Forall_app. split; [|repeat constructor; simpl; lia].
      eapply Forall_impl; [exact Hbound'|]. simpl. lia.
    + apply Forall_app. split; [|by repeat constructor].
      eapply Forall_impl; [exact Hall|]. intros q Hq. by rewrite Hq.
  - split_and!; cbn [requests runs cleanup]; [| | |by intros k [= <-]].
    + by rewrite cancel_sentBy.
    + eapply Forall_impl; [exact Hbound'|]. simpl. lia.
    + eapply Forall_impl; [exact Hall|]. intros q Hq. by rewrite Hq.
  - split_and!; cbn [requests runs cleanup]; [| | |done].
    + by rewrite cancel_sentBy.
    + done.
    + eapply Forall_impl; [exact Hall|]. intros q Hq. by rewrite Hq.
Qed.

Lemma StronglySorted_delete {A} (R : relation A) l n :
  StronglySorted R l → StronglySorted R (delete n l).
Proof.
  intros H. revert n. induction H as [|x l Hs IH Hx]; intros [|n]; simpl;
    [constructor|constructor|done|].
  constructor; [apply IH|by apply Forall_delete].
Qed.

Lemma settled_frame q outcome st :
  requests (settled q outcome st) = requests st
  ∧ cleanup (settled q outcome st) = cleanup st
  ∧ runs (settled q outcome st) = runs st.
Proof. unfold settled. by destruct (cancelled q), outcome. Qed.

Lemma well_formed_step st e : well_formed st → well_formed (step st e).
Proof.
  destruct e as [isOpen settingsParse|n outcome]; simpl; [apply well_formed_effect|].
  intros (Hsorted & Hbound & Hlive & Hlast).
  destruct (requests st !! n) as [q|] eqn:Hn; [|done].
  unfold well_formed. destruct (settled_frame q outcome
    (mkLoader (logs st) (loading st) (error st) (delete n (requests st)) (cleanup st) (runs st)))
    as (-> & -> & ->). cbn [requests cleanup runs].
  split_and!.
  - rewrite list_fmap_delete. by apply StronglySorted_delete.
  - by apply Forall_delete.
  - by apply Forall_delete.
  - done.
Qed.

Lemma well_formed_run st events : well_formed st → well_formed (run st events).
Proof.
  revert st. induction events as [|e events IH]; intros st H; [done|].
  apply IH. by apply well_formed_step.
Qed.

(** A live request is the one that was sent last. *)
Lemma live_is_last st q :
  well_formed st → q ∈ requests st → cancelled q = false → last (requests st) = Some q.
Proof.
  intros (Hsorted & Hbound & Hlive & Hlast) Hq Hc.
  rewrite Forall_forall in Hlive. pose proof (Hlast _ (Hlive q Hq Hc)) as Hk.
  apply list_elem_of_split in Hq as (l1 & l2 & Hreq). rewrite Hreq in *.
  destruct l2 as [|q' l2]; [by rewrite last_snoc|].
  rewrite fmap_app, fmap_cons in Hsorted.
  apply StronglySorted_app_1_r, StronglySorted_inv in Hsorted as [_ Hlt].
  rewrite fmap_cons in Hlt. apply Forall_cons in Hlt as [Hlt _].
  rewrite Forall_forall in Hbound.
  assert (sentBy q' < runs st) by (apply Hbound; set_solver). lia.
Qed.

Lemma cancelled_answer_is_dropped st n q outcome :
  requests st !! n = Some q → cancelled q = true →
  shown (step st (Answered n outcome)) = shown st.
Proof. intros Hn Hc. simpl. rewrite Hn. unfold settled. by rewrite Hc. Qed.

End LoaderFacts.

(** ** The settings dialog and the lists of models *)

Module SettingsFacts.
Import Mongo Settings Models.

Lemma or_value_text s d : or_value (Some (JString s)) (JString d) = JString (if JS.truthy s then s else d).
Proof. unfold or_value. simpl. by destruct (JS.truthy s). Qed.

Lemma truthy_or_empty s : (if JS.truthy s then s else "") = s.
Proof.
  unfold JS.truthy. destruct (String.eqb_spec s "") as [->|]; done.
Qed.

Lemma load_save f g : load (Some (save f)) g = reloaded f.
Proof.
  destruct f as [p k m u lm t cm uri db si].
  destruct p; cbv -[truthy];
    destruct (truthy (Some k)) eqn:Ek, (truthy (Some m)) eqn:Em,
             (truthy (Some u)) eqn:Eu, (truthy (Some lm)) eqn:Elm;
    do 3 (cbv -[truthy]; rewrite ?Ek, ?Em, ?Eu, ?Elm); reflexivity.
Qed.

(** The order of [ids.sort()]. *)
Lemma sort_sorted ids : StronglySorted (λ a b, (a ≤ b)%string) (sort ids).
Proof.
  apply (SortFacts.stable_sort_sorted _ (λ _, True)).
  - intros x y _ _ H. rewrite SortFacts.ltb_leb, negb_true_iff in H.
    destruct (total String.le y x) as [Hle|Hle]; [done|].
    unfold String.le in Hle. by rewrite H in Hle.
  - intros x y _ _ H. rewrite SortFacts.ltb_leb, negb_false_iff in H.
    unfold String.le. by rewrite H.
  - intros x y z _ _ _ H1 H2. by etrans.
  - by apply Forall_true.
Qed.

Lemma sort_Permutation ids : sort ids ≡ₚ ids.
Proof. apply SortFacts.stable_sort_Permutation. Qed.

(** The model selected after a list of identifiers arrives. *)
Lemma autoSelect_spec data current :
  let selected := autoSelect (sort data) current in
  if JS.truthy current then selected = current
  else match data with
       | [] => selected = current
       | _ :: _ => selected ∈ data ∧ Forall (λ id, (selected ≤ id)%string) data
       end.
Proof.
  intros selected. subst selected. unfold autoSelect.
  destruct (JS.truthy current); [done|]. cbn [negb andb].
  destruct data as [|id data]; [done|].
  pose proof (sort_Permutation (id :: data)) as Hp.
  pose proof (sort_sorted (id :: data)) as Hs.
  destruct (sort (id :: data)) as [|least rest] eqn:E.
  { apply Permutation_length in Hp. done. }
  simpl. split.
  - rewrite <- Hp. by left.
  - rewrite <- Hp. apply StronglySorted_inv in Hs as [_ Hs]. by constructor.
Qed.

End SettingsFacts.


(** ** Strings and their ends *)

Module UrlFacts.
Import Models Views.

Lemma app_cons ch (a b : string) : String ch a +:+ b = String ch (a +:+ b).
Proof. done. Qed.

Lemma app_assoc (a b c : string) : (a +:+ b) +:+ c = a +:+ (b +:+ c).
Proof. induction a as [|ch a IH]; [done|]. by rewrite !app_cons, IH. Qed.

Lemma app_nil_r (a : string) : a +:+ "" = a.
Proof. induction a as [|ch a IH]; [done|]. by rewrite app_cons, IH. Qed.

Lemma rev_app_app (s acc : string) : String.rev_app s acc = String.rev s +:+ acc.
Proof.
  revert acc. induction s as [|ch s IH]; intros acc; [done|].
  unfold String.rev. simpl. rewrite (IH (String ch acc)), (IH (String ch "")).
  by rewrite app_assoc.
Qed.

Lemma rev_cons ch (s : string) : String.rev (String ch s) = String.rev s +:+ String ch "".
Proof. unfold String.rev at 1. simpl. apply rev_app_app. Qed.

Lemma rev_append (s t : string) : String.rev (s +:+ t) = String.rev t +:+ String.rev s.
Proof.
  induction s as [|ch s IH]; [by rewrite app_nil_r|].
  by rewrite app_cons, !rev_cons, IH, app_assoc.
Qed.

Lemma rev_involutive (s : string) : String.rev (String.rev s) = s.
Proof.
  induction s as [|ch s IH]; [done|]. by rewrite rev_cons, rev_append, IH.
Qed.

Lemma slashes_snoc n : slashes n +:+ "/" = String "/" (slashes n).
Proof. induction n as [|n IH]; [done|]. cbn [slashes]. by rewrite app_cons, IH. Qed.

Lemma rev_slashes n : String.rev (slashes n) = slashes n.
Proof.
  induction n as [|n IH]; [done|]. cbn [slashes]. by rewrite rev_cons, IH, slashes_snoc.
Qed.

Lemma dropSlashes_spec (s : string) :
  (∃ n, s = slashes n +:+ dropSlashes s) ∧ ∀ t, dropSlashes s ≠ String "/" t.
Proof.
  induction s as [|ch s [[n IH1] IH2]]; [split; [by exists 0|done]|].
  destruct (Ascii.ascii_dec ch "/") as [->|Hne].
  - split; [|exact IH2]. exists (S n). cbn [slashes dropSlashes]. rewrite app_cons. by f_equal.
  - assert (dropSlashes (String ch s) = String ch s) as ->.
    { destruct ch as [[] [] [] [] [] [] [] []]; done. }
    split; [by exists 0|]. intros t [= ? _]. done.
Qed.

Lemma cleanUrl_spec (url : string) :
  (∃ n, JS.trim url = cleanUrl url +:+ slashes n) ∧ ∀ s, cleanUrl url ≠ s +:+ "/".
Proof.
  unfold cleanUrl. set (u := String.rev (JS.trim url)).
  destruct (dropSlashes_spec u) as [[n Hn] Hd]. split.
  - exists n. rewrite <- (rev_involutive (JS.trim url)). fold u.
    rewrite Hn at 1. by rewrite rev_append, rev_slashes.
  - intros s Hs. apply (f_equal String.rev) in Hs.
    rewrite rev_involutive, rev_append in Hs. by apply (Hd (String.rev s)).
Qed.

(** *** [trim] *)

Lemma trimStart_start (s : string) : trimmed_start (JS.trimStart s).
Proof.
  induction s as [|ch s IH]; [done|]. simpl.
  destruct (Ascii.is_space ch) eqn:E; [done|]. simpl. done.
Qed.

Lemma trimStart_id (s : string) : trimmed_start s → JS.trimStart s = s.
Proof. destruct s as [|ch s]; [done|]. simpl. by intros ->. Qed.

(** What [trimStart] leaves is an end of the string. *)
Lemma trimStart_suffix (s : string) : ∃ w, s = w +:+ JS.trimStart s.
Proof.
  induction s as [|ch s [w IH]]; [by exists ""|]. simpl.
  destruct (Ascii.is_space ch); [|by exists ""].
  exists (String ch w). rewrite app_cons. by f_equal.
Qed.

Lemma trimmed_start_prefix (a b : string) : trimmed_start (a +:+ b) → trimmed_start a.
Proof. by destruct a. Qed.

Lemma trim_trimmed (s : string) :
  trimmed_start (JS.trim s) ∧ trimmed_start (String.rev (JS.trim s)).
Proof.
  unfold JS.trim. set (u := JS.trimStart s). split.
  - destruct (trimStart_suffix (String.rev u)) as [w Hw].
    apply (f_equal String.rev) in Hw. rewrite rev_involutive, rev_append in Hw.
    apply (trimmed_start_prefix _ (String.rev w)). rewrite <- Hw. apply trimStart_start.
  - rewrite rev_involutive. apply trimStart_start.
Qed.

Lemma trim_idemp (s : string) : JS.trim (JS.trim s) = JS.trim s.
Proof.
  destruct (trim_trimmed s) as [H1 H2]. unfold JS.trim at 1.
  by rewrite (trimStart_id _ H1), (trimStart_id _ H2), rev_involutive.
Qed.

End UrlFacts.

(** ** The search box *)

Module SearchFacts.
Import Mongo Routes App Views.

Lemma terms_ready_initial : terms_ready initial.
Proof. split; [done|constructor]. Qed.

Lemma terms_ready_step st e : terms_ready st → terms_ready (step st e).
Proof.
  intros H. pose proof H as [Htimer Hcalls]. destruct e; simpl; try done.
  - destruct (tab st); [done|]. unfold handleSearch.
    destruct (JS.truthy (JS.trim value)) eqn:Ht; split; simpl; try done.
    intros t [= <-]. split; [done|apply UrlFacts.trim_idemp].
  - destruct (debounce st) as [term|] eqn:Hd; [|done]. split; simpl; [done|].
    apply Forall_app. split; [done|]. constructor; [by apply Htimer|constructor].
  - destruct (searchCalls st !! n) as [term|] eqn:Hn; [|done].
    destruct outcome; (split; simpl; [done|by apply Forall_delete]).
  - by destruct (tab st).
  - by destruct (selectionMode st).
  - by destruct (selectionMode st).
  - by destruct (selectionMode st).
  - destruct (convSessionId conv) as [sid|]; [|done]. by case_match.
  - by case_match.
  - by case_match.
  - destruct (deleteCalls st !! n) as [call|]; [|done].
    unfold delete_settled, handleDeleteChats. by repeat case_match.
Qed.

Lemma terms_ready_run st events : terms_ready st → terms_ready (run st events).
Proof.
  revert st. induction events as [|e events IH]; intros st H; [done|].
  apply IH. by apply terms_ready_step.
Qed.

End SearchFacts.

(** * Further properties of the same code *)

Module Further.
Import Mongo Routes App Examples.

(** X1. [Array.prototype.sort] with a comparator that subtracts ranks is a
    stable sort: the result is a permutation of the input, ascending in
    rank, and elements of one rank keep their input order. *)
Theorem Array_sort_is_stable {A : Type} (rank : A → Z) (z : Z) (l : list A) :
  let sorted := JS.Array_sort (λ a b, Some (rank a - rank b)%Z) l in
  sorted ≡ₚ l
  ∧ StronglySorted (λ a b, (rank a ≤ rank b)%Z) sorted
  ∧ List.filter (λ a, (rank a =? z)%Z) sorted = List.filter (λ a, (rank a =? z)%Z) l.
Proof.
  intros sorted. subst sorted. unfold JS.Array_sort. split_and!.
  - apply SortFacts.stable_sort_Permutation.
  - apply (SortFacts.stable_sort_sorted _ (λ _, True)).
    + intros x y _ _ H. simpl in H. apply Z.ltb_lt in H. lia.
    + intros x y _ _ H. simpl in H. apply Z.ltb_ge in H. lia.
    + intros x y y' _ _ _ ??. lia.
    + by apply Forall_true.
  - apply SortFacts.stable_sort_stable. intros x y _ _. simpl.
    destruct (Z.ltb_spec 0 (rank x - rank y)), (Z.ltb_spec (rank y) (rank x)); lia || done.
Qed.


(** X3. With nothing between the click and the answer, a successful
    deletion leaves selection mode, empties the selection, lowers the busy
    flag, and resets the active session exactly when everything was
    deleted or the (non-empty) active session is in the deleted list. *)
Theorem success_without_interleaving (sessionIds : option (list string)) (st : State) :
  let st' := step (callDelete sessionIds st) (DeleteAnswered (length (deleteCalls st)) true) in
  selectionMode st' = false ∧ selectedKeys st' = ∅ ∧ deleting st' = false
  ∧ activeSessionId st'
    = match sessionIds with
      | None => None
      | Some ids =>
          match activeSessionId st with
          | Some sid => if JS.truthy sid && JS.includes ids sid then None else Some sid
          | None => None
          end
      end.
Proof.
  intros st'. subst st'. rewrite AppFacts.call_then_answer.
  unfold delete_settled, handleDeleteChats. cbn [target capturedSessionId].
  destruct sessionIds as [ids|]; [|done].
  destruct (activeSessionId st) as [sid|] eqn:Ha; [|by rewrite <- Ha].
  by destruct (JS.truthy sid && JS.includes ids sid).
Qed.

(** A keystroke in the search box replaces the pending debounce timer,
    whatever it was, by one for the new trimmed value and sends no
    request; a blank value sets no timer and puts the search view back to
    "no search performed". *)
Lemma keystroke_restarts_debounce (value : string) (st : State) :
  query (handleSearch value st) = value
  ∧ searchCalls (handleSearch value st) = searchCalls st
  ∧ if JS.truthy (JS.trim value)
    then debounce (handleSearch value st) = Some (JS.trim value)
    else debounce (handleSearch value st) = None
         ∧ searchResults (handleSearch value st) = []
         ∧ hasSearched (handleSearch value st) = false
         ∧ searchError (handleSearch value st) = None.
Proof. unfold handleSearch. by destruct (JS.truthy (JS.trim value)). Qed.

(** X6. When every [createdAt] of the fetch is a date, the summaries come
    latest first and the records of each summary earliest first. *)
Theorem summaries_are_ordered_in_time
    (getTime : string → option Z) (historyItems : list LogItem) (convs : list Conversation) :
  Forall (λ r, is_Some (getTime (createdAt r))) historyItems →
  Sidebar.conversations getTime historyItems = Some convs →
  StronglySorted (λ c c', Invariants.not_later getTime (date c') (date c)) convs
  ∧ Forall (λ c, StronglySorted
                   (λ r r', Invariants.not_later getTime (createdAt r) (createdAt r'))
                   (allLogs c)) convs.
Proof.
  intros Hdates Hconvs. rewrite GroupingFacts.conversations_grouping in Hconvs.
  injection Hconvs as <-. unfold GroupingSpec.grouping.
  assert (Forall (λ c, is_Some (getTime (date c))
                       ∧ StronglySorted
                           (λ r r', Invariants.not_later getTime (createdAt r) (createdAt r'))
                           (allLogs c))
            (map (GroupingSpec.session_summary getTime GroupingSpec.nonempty_session historyItems)
                 (GroupingSpec.session_ids GroupingSpec.nonempty_session historyItems)
             ++ GroupingSpec.legacy_summaries GroupingSpec.nonempty_session 0 historyItems))
    as Hall.
  { apply Forall_app. split.
    - by apply GroupingFacts.session_summaries_dated.
    - by apply GroupingFacts.legacy_summaries_dated. }
  split.
  - apply GroupingFacts.latest_first_sorted.
    eapply Forall_impl; [exact Hall|]. by intros c [? _].
  - rewrite SortFacts.stable_sort_Permutation.
    eapply Forall_impl; [exact Hall|]. by intros c [_ ?].
Qed.

(** X6 on the scenario of section 8. *)
Lemma scenario_is_ordered_in_time :
  Forall (λ r, is_Some (IsoClock.getTime (createdAt r))) scenario
  ∧ ∃ convs, Sidebar.conversations IsoClock.getTime scenario = Some convs
             ∧ StronglySorted
                 (λ c c', Invariants.not_later IsoClock.getTime (date c') (date c)) convs.
Proof.
  assert (Forall (λ r, is_Some (IsoClock.getTime (createdAt r))) scenario) as Hdates.
  { repeat constructor; by eexists. }
  split; [exact Hdates|].
  destruct (Sidebar.conversations IsoClock.getTime scenario) as [convs|] eqn:Hconvs;
    [|discriminate (eq_trans (eq_sym Hconvs)
                      (GroupingFacts.conversations_grouping IsoClock.getTime scenario))].
  exists convs. split; [reflexivity|].
  exact (proj1 (summaries_are_ordered_in_time IsoClock.getTime scenario convs Hdates Hconvs)).
Defined.


End Further.

(** * Properties of the code beyond the claims *)

Module Coverage.
Import Mongo Routes App Examples Invariants Views LogsRoute.

(** X4. Every search request of the sidebar carries a term that is not
    empty and has no white space around it, so the route searches for
    the very term it was sent: trimming it again changes nothing. *)
Theorem search_requests_carry_a_trimmed_term (events : list Event) :
  Forall (λ term, JS.truthy term = true ∧ searchTerm (Some (JString term)) = term)
    (searchCalls (run initial events)).
Proof.
  destruct (SearchFacts.terms_ready_run initial events SearchFacts.terms_ready_initial)
    as [_ Hcalls].
  eapply Forall_impl; [exact Hcalls|]. by intros term [Ht Htrim].
Qed.

(** X5. A click on a row in selection mode only toggles the row's key in
    the selection (a second click undoes the first) and loads nothing;
    outside selection mode it loads the conversation under its
    [sessionId], or under its key when it has none, and leaves the
    selection alone. *)
Theorem row_click_toggles_or_loads (conv : Conversation) (st : State) :
  let st' := step st (ClickRow conv) in
  if selectionMode st then
    selectionMode st' = true
    ∧ (∀ k, k ∈ selectedKeys st'
            ↔ (k ≠ key conv ∧ k ∈ selectedKeys st) ∨ (k = key conv ∧ k ∉ selectedKeys st))
    ∧ activeSessionId st' = activeSessionId st
    ∧ messages st' = messages st
    ∧ selectedKeys (step st' (ClickRow conv)) = selectedKeys st
  else
    activeSessionId st' = Some (default (key conv) (convSessionId conv))
    ∧ length (messages st') = 2 * length (allLogs conv)
    ∧ selectionMode st' = false
    ∧ selectedKeys st' = selectedKeys st.
Proof.
  intros st'. subst st'. cbn [step]. destruct (selectionMode st) eqn:Hm.
  - cbn [step set_selection selectionMode selectedKeys activeSessionId messages].
    split_and!; try done.
    + intros k. case_bool_decide; destruct (decide (k = key conv)); set_solver.
    + apply leibniz_equiv. intros k.
      do 2 case_bool_decide; destruct (decide (k = key conv)); set_solver.
  - split_and!; try done.
    unfold loadChat. cbn [set_session messages].
    induction (allLogs conv) as [|l ls IH]; simpl; [done|]. rewrite IH. lia.
Qed.

(** X8. In every state the page can reach, the selection is empty unless
    the sidebar is in selection mode. *)
Theorem selection_is_empty_outside_selection_mode (events : list Event) :
  let st := run initial events in
  selectionMode st = true ∨ selectedKeys st = ∅.
Proof.
  simpl. unfold run.
  assert (∀ st, selectionMode st = true ∨ selectedKeys st = ∅ →
            selectionMode (foldl step st events) = true
            ∨ selectedKeys (foldl step st events) = ∅) as H.
  { induction events as [|e events IH]; intros st H; simpl; [done|].
    apply IH. by apply SelectionFacts.selection_step. }
  apply H. by right.
Qed.

(** X9. In every state the page can reach, the busy flag of the sidebar is
    up exactly while a deletion call waits for its answer: the delete
    controls are enabled again as soon as the answer is in, whatever it
    is. *)
Theorem busy_flag_tracks_the_call (events : list Event) :
  let st := run initial events in
  deleting st = bool_decide (deleteCalls st ≠ []).
Proof.
  simpl. unfold run.
  assert (∀ st, one_in_flight st → deleting st = bool_decide (deleteCalls st ≠ []) →
            deleting (foldl step st events)
            = bool_decide (deleteCalls (foldl step st events) ≠ [])) as H.
  { induction events as [|e events IH]; intros st H1 H2; simpl; [done|].
    apply IH; [by apply AppFacts.one_in_flight_step|by apply SelectionFacts.busy_step]. }
  apply H; [apply AppFacts.one_in_flight_initial|done].
Qed.

(** X10. The history version never goes down, and a deletion that
    succeeds raises it, so the sidebar fetches again. *)
Theorem history_version_only_grows (events : list Event) (call : DeleteCall) (st : State) :
  historyVersion st ≤ historyVersion (run st events)
  ∧ historyVersion st < historyVersion (delete_settled call true st).
Proof.
  split.
  - revert st. induction events as [|e events IH]; intros st; simpl; [done|].
    etrans; [apply (SelectionFacts.history_step st e)|apply IH].
  - unfold delete_settled, handleDeleteChats. repeat case_match; simpl; lia.
Qed.

(** X11. A deletion by a non-empty list of session identifiers removes
    exactly the records whose [sessionId] is in the list and keeps the
    others in their order; the count it reports is the number of records
    that are gone, and the same request once more deletes nothing. *)
Theorem listed_sessions_are_deleted (id : string) (ids : list string) (c : Collection) :
  let body := delete_body (Some (id :: ids)) in
  let deleted := (delete_logs body c).1 in
  let kept := (delete_logs body c).2 in
  kept = List.filter (λ d, negb (in_ids (id :: ids) d)) c
  ∧ (∀ d, d ∈ kept ↔ d ∈ c ∧ ∀ s, sessionId d = Some s → s ∉ id :: ids)
  ∧ deleted + length kept = length c
  ∧ delete_logs body kept = (0, kept).
Proof. apply SelectionFacts.listed_sessions_spec. Qed.

(** X12. "Delete selected", end to end: with a selection and no deletion
    under way, the click sends one request, and the route that receives
    its body removes exactly the records whose [sessionId] is one of the
    selected keys. The record behind a selected row without a session
    stays. *)
Theorem delete_selected_end_to_end (st : State) (c : Collection) :
  selectionMode st = true → deleting st = false → selectedKeys st ≠ ∅ →
  ∃ call, deleteCalls (step st ClickDeleteSelected) = deleteCalls st ++ [call]
          ∧ deleting (step st ClickDeleteSelected) = true
          ∧ ∀ d, d ∈ (delete_logs (delete_body (target call)) c).2
                 ↔ d ∈ c ∧ ∀ s, sessionId d = Some s → s ∉ selectedKeys st.
Proof.
  intros Hm Hd Hsel. cbn [step]. rewrite Hm, Hd.
  rewrite bool_decide_eq_false_2 by (by rewrite size_empty_iff; intros ?%leibniz_equiv).
  cbn [negb orb andb]. eexists. split; [done|]. split; [done|].
  cbn [target]. destruct (elements (selectedKeys st)) as [|id ids] eqn:He.
  { apply elements_empty_inv in He. by apply leibniz_equiv in He. }
  intros d. destruct (SelectionFacts.listed_sessions_spec id ids c) as (_ & H & _). rewrite H.
  split; intros [? Hs]; (split; [done|]); intros s ?; specialize (Hs s);
    rewrite <- He, elem_of_elements in *; auto.
Qed.

(** X12 for the selection made by two clicks. *)
Lemma delete_selected_example :
  ∃ call, deleteCalls (step (run initial [ClickSelect; ClickRow convA]) ClickDeleteSelected)
          = deleteCalls (run initial [ClickSelect; ClickRow convA]) ++ [call]
          ∧ deleting (step (run initial [ClickSelect; ClickRow convA]) ClickDeleteSelected) = true
          ∧ ∀ d, d ∈ (delete_logs (delete_body (target call)) scenario).2
                 ↔ d ∈ scenario
                   ∧ ∀ s, sessionId d = Some s
                          → s ∉ selectedKeys (run initial [ClickSelect; ClickRow convA]).
Proof.
  apply (delete_selected_end_to_end (run initial [ClickSelect; ClickRow convA]) scenario).
  - reflexivity.
  - reflexivity.
  - intros H. apply (f_equal size) in H. vm_compute in H. discriminate H.
Defined.

(** X13. No deletion request of the sidebar carries an empty list: in
    every state the page can reach, a request that waits for its answer
    names at least one session or none at all (delete all). *)
Theorem sidebar_sends_no_empty_list (events : list Event) :
  Forall (λ call, target call ≠ Some []) (deleteCalls (run initial events)).
Proof.
  unfold run.
  assert (∀ st, Forall (λ call, target call ≠ Some []) (deleteCalls st) →
            Forall (λ call, target call ≠ Some []) (deleteCalls (foldl step st events))) as H.
  { induction events as [|e events IH]; intros st H; simpl; [done|].
    apply IH. by apply SelectionFacts.targets_step. }
  apply H. constructor.
Qed.

(** X14. The summaries of the sidebar partition the fetch: every record
    is in the thread of exactly one summary, and each summary counts its
    own thread, which is never empty. *)
Theorem conversations_partition_the_fetch
    (getTime : string → option Z) (historyItems : list LogItem) :
  ∃ convs, Sidebar.conversations getTime historyItems = Some convs
           ∧ mjoin (allLogs <$> convs) ≡ₚ historyItems
           ∧ Forall (λ c, msgCount c = length (allLogs c) ∧ 1 ≤ msgCount c) convs.
Proof.
  eexists. split; [apply GroupingFacts.conversations_grouping|].
  unfold GroupingSpec.grouping. split.
  - rewrite SortFacts.stable_sort_Permutation. apply PartitionFacts.summaries_partition.
  - rewrite SortFacts.stable_sort_Permutation.
    eapply Forall_impl; [apply PartitionFacts.summaries_shape|].
    intros c [(sid & _ & _ & _ & Hn & H1 & _)|(r & _ & Hl & _ & _ & Hn)]; rewrite Hn; [done|by rewrite Hl].
Qed.

(** X15. A summary never mixes sessions: a summary with a [sessionId]
    has it as key, and every record of its thread carries it; a summary
    without one holds a single record that has no session. No two
    summaries are for the same session. *)
Theorem summaries_hold_one_session
    (getTime : string → option Z) (historyItems : list LogItem) :
  ∃ convs, Sidebar.conversations getTime historyItems = Some convs
           ∧ Forall (λ c, match convSessionId c with
                          | Some sid =>
                              key c = sid ∧ JS.truthy sid = true
                              ∧ Forall (λ r, sessionId r = Some sid) (allLogs c)
                          | None =>
                              ∃ r, allLogs c = [r] ∧ JS.truthy_opt (sessionId r) = false
                          end) convs
           ∧ NoDup (omap convSessionId convs).
Proof.
  eexists. split; [apply GroupingFacts.conversations_grouping|].
  unfold GroupingSpec.grouping. split.
  - rewrite SortFacts.stable_sort_Permutation.
    eapply Forall_impl; [apply PartitionFacts.summaries_shape|].
    intros c [(sid & Hk & -> & Ht & _ & _ & Hall)|(r & _ & Hl & -> & Hf & _)].
    + done.
    + by exists r.
  - rewrite SortFacts.stable_sort_Permutation. apply PartitionFacts.sessions_NoDup.
Qed.

(** X16. When no [sessionId] of the fetch starts with "legacy-", the
    keys of the summaries, which the sidebar uses to tell rows apart and
    to hold the selection, are pairwise distinct. *)
Theorem summary_keys_are_distinct
    (getTime : string → option Z) (historyItems : list LogItem) (convs : list Conversation) :
  Forall (λ r, ∀ s, sessionId r = Some s → String.prefix "legacy-" s = false) historyItems →
  Sidebar.conversations getTime historyItems = Some convs →
  NoDup (key <$> convs).
Proof.
  intros Hfree Hconvs. rewrite GroupingFacts.conversations_grouping in Hconvs.
  injection Hconvs as <-. unfold GroupingSpec.grouping.
  rewrite SortFacts.stable_sort_Permutation. by apply PartitionFacts.keys_NoDup.
Qed.

(** X16 on the scenario of section 8. *)
Lemma scenario_keys_are_distinct :
  ∃ convs, Sidebar.conversations IsoClock.getTime scenario = Some convs
           ∧ NoDup (key <$> convs).
Proof.
  destruct (Sidebar.conversations IsoClock.getTime scenario) as [convs|] eqn:Hconvs;
    [|discriminate (eq_trans (eq_sym Hconvs)
                      (GroupingFacts.conversations_grouping IsoClock.getTime scenario))].
  exists convs. split; [reflexivity|].
  apply (summary_keys_are_distinct IsoClock.getTime scenario convs); [|exact Hconvs].
  repeat constructor; intros s [= <-]; reflexivity.
Defined.

(** X17. The history fetch returns whole threads, latest record first:
    the records are records of the collection, and with a record it
    returns every record of the collection that has the same
    [sessionId] (or, like it, none). *)
Theorem history_returns_whole_threads (c : Collection) :
  history_logs c ⊆+ c
  ∧ StronglySorted (λ a b, (createdAt b ≤ createdAt a)%string) (history_logs c)
  ∧ Forall (λ d, Forall (λ d', sessionId d' = sessionId d → d' ∈ history_logs c) c)
      (history_logs c).
Proof.
  split_and!.
  - rewrite LogsFacts.history_logs_groups, SortFacts.sort_desc_Permutation.
    apply sublist_submseteq, ListFacts.filter_sublist.
  - rewrite LogsFacts.history_logs_groups. apply SortFacts.sort_desc_sorted.
  - apply Forall_forall. intros d Hd. apply Forall_forall. intros d' Hd' Heq.
    apply FindFacts.elem_of_history_logs in Hd as [_ Hd].
    apply FindFacts.elem_of_history_logs. by rewrite Heq.
Qed.

(** X18. With at most 50 distinct values of [sessionId] in the
    collection (no [sessionId] counting as one), the history fetch
    returns every record. *)
Theorem history_is_complete_up_to_fifty_groups (c : Collection) :
  length (Util.distinct (sessionId <$> c)) ≤ 50 →
  history_logs c ≡ₚ c.
Proof. apply FindFacts.history_logs_complete. Qed.

(** X18 on the scenario of section 8. *)
Lemma scenario_history_is_complete :
  length (Util.distinct (sessionId <$> scenario)) ≤ 50 ∧ history_logs scenario ≡ₚ scenario.
Proof.
  assert (length (Util.distinct (sessionId <$> scenario)) ≤ 50) as H.
  { vm_compute. lia. }
  split; [exact H|]. exact (history_is_complete_up_to_fifty_groups scenario H).
Defined.

(** X19. [GET /api/logs] looks at the connection string of the
    environment only. Without one it answers with no records; with one
    and a store that answers, it returns the 50 latest records of the
    collection, latest first; with a store that does not answer the
    request fails. *)
Theorem GET_returns_the_latest_fifty (env : Env) (c : Collection) :
  match GET_logs env c with
  | Json logs =>
      if JS.truthy_opt (MONGO_URI env) then
        reachable env = true
        ∧ logs ⊆+ c
        ∧ length logs = min 50 (length c)
        ∧ StronglySorted (λ a b, (createdAt b ≤ createdAt a)%string) logs
        ∧ Forall (λ d, d ∈ logs ∨ Forall (λ d', (createdAt d ≤ createdAt d')%string) logs) c
      else logs = []
  | Failed status =>
      status = 500 ∧ JS.truthy_opt (MONGO_URI env) = true ∧ reachable env = false
  end.
Proof.
  unfold GET_logs. destruct (JS.truthy_opt (MONGO_URI env)); [|done].
  destruct (reachable env); [|done]. cbn [negb].
  destruct (FindFacts.find_sorted_latest (λ _, true) 50 c) as (H1 & H2 & H3 & H4).
  rewrite (ListFacts.filter_all (λ _, true) c) in * by (by apply Forall_true).
  done.
Qed.

(** X20. Deleting sessions and grouping again: when every [createdAt]
    is a date, the session rows of what a deletion by identifiers leaves
    are the session rows of before without the deleted sessions, in the
    same order and with the same threads. *)
Theorem session_rows_after_deletion
    (getTime : string → option Z) (id : string) (ids : list string) (c : Collection)
    (before : list Conversation) :
  Forall (λ r, is_Some (getTime (createdAt r))) c →
  Sidebar.conversations getTime c = Some before →
  ∃ after,
    Sidebar.conversations getTime (delete_logs (delete_body (Some (id :: ids))) c).2 = Some after
    ∧ List.filter of_session after
      = List.filter (λ v, of_session v && negb (bool_decide (key v ∈ id :: ids))) before.
Proof.
  intros Hdates Hbefore. rewrite GroupingFacts.conversations_grouping in Hbefore.
  injection Hbefore as <-.
  eexists. split; [apply GroupingFacts.conversations_grouping|].
  destruct (SelectionFacts.listed_sessions_spec id ids c) as (-> & _).
  by apply RegroupFacts.session_rows_left.
Qed.

(** X20 on the scenario of section 8, session A deleted. *)
Lemma scenario_rows_after_deletion :
  ∃ before after,
    Sidebar.conversations IsoClock.getTime scenario = Some before
    ∧ Sidebar.conversations IsoClock.getTime
        (delete_logs (delete_body (Some ["A"])) scenario).2 = Some after
    ∧ List.filter of_session after
      = List.filter (λ v, of_session v && negb (bool_decide (key v ∈ ["A"]))) before.
Proof.
  assert (Forall (λ r, is_Some (IsoClock.getTime (createdAt r))) scenario) as Hdates.
  { repeat constructor; by eexists. }
  destruct (Sidebar.conversations IsoClock.getTime scenario) as [before|] eqn:Hbefore;
    [|discriminate (eq_trans (eq_sym Hbefore)
                      (GroupingFacts.conversations_grouping IsoClock.getTime scenario))].
  exists before.
  destruct (session_rows_after_deletion IsoClock.getTime "A" [] scenario before Hdates Hbefore)
    as (after & Hafter & Hrows).
  exists after. split; [reflexivity|]. split; [exact Hafter|exact Hrows].
Defined.

End Coverage.

(** * The chat page, the history loader and the settings dialog *)

Module PageCoverage.
Import Mongo Routes App Page Examples Views.

(** X21. In every state the chat page can reach, at most one request to
    the chat route waits for its answer, and the spinner is up exactly
    while one does. *)
Theorem one_chat_request_at_a_time (getTime : string → option Z) (events : list Event) :
  let ps := run getTime initial events in
  length (chatCalls ps) ≤ 1 ∧ loading ps = bool_decide (chatCalls ps ≠ []).
Proof. apply PageFacts.one_chat_call_run, PageFacts.one_chat_call_initial. Qed.



(** X23. What the page restores when it is mounted, given the history
    fetch of a collection: the session of the latest record that has a
    non-empty [sessionId] becomes the active session, and the messages
    are the questions and answers of every record of that session in
    the collection. Without such a record the active session is left
    alone and the first record of the fetch, if any, is shown. *)
Theorem restore_opens_the_latest_session
    (getTime : string → option Z) (c : Collection) (st : App.State) :
  let logs := history_logs c in
  let st' := restore getTime logs st in
  match List.find (λ l, JS.truthy_opt (sessionId l)) logs with
  | Some r =>
      ∃ sid thread,
        sessionId r = Some sid ∧ JS.truthy sid = true ∧ r ∈ c
        ∧ Forall (λ r', JS.truthy_opt (sessionId r') = true
                        → (createdAt r' ≤ createdAt r)%string) logs
        ∧ activeSessionId st' = Some sid
        ∧ messages st' = toMessages thread
        ∧ thread ≡ₚ List.filter (λ d, bool_decide (sessionId d = Some sid)) c
  | None =>
      activeSessionId st' = activeSessionId st
      ∧ messages st' = match logs with
                       | [] => messages st
                       | first :: _ => [(user, question first); (assistant, answer first)]
                       end
  end.
Proof.
  intros logs st'. subst st'. unfold restore.
  destruct (List.find (λ l, JS.truthy_opt (sessionId l)) logs) as [r|] eqn:Hfind.
  - pose proof (SortFacts.sort_desc_sorted createdAt
                  (List.filter (λ d, bool_decide (sessionId d ∈ _id <$> recentSessions c)) c))
      as Hsorted.
    rewrite <- LogsFacts.history_logs_groups in Hsorted. fold logs in Hsorted.
    destruct (PageFacts.find_sorted_first _ _ _ _ Hsorted Hfind) as (Ht & Hr & Hfirst).
    destruct (sessionId r) as [sid|] eqn:Hsid; [|done]. simpl in Ht.
    destruct logs as [|first rest] eqn:Hlogs; [by apply elem_of_nil in Hr|].
    rewrite <- Hlogs in *. cbn [mbind option_bind]. rewrite Hsid. cbn [JS.truthy_opt].
    rewrite Ht. eexists sid, _. split_and!; try done.
    + by apply FindFacts.elem_of_history_logs in Hr as [? _].
    + apply Forall_forall. intros r' Hr' Ht'.
      destruct (Hfirst r' Hr' Ht') as [<-|?]; [|done].
      reflexivity.
    + unfold JS.Array_sort. rewrite SortFacts.stable_sort_Permutation.
      by apply (PageFacts.history_thread c r sid).
  - apply PageFacts.find_none in Hfind.
    destruct logs as [|first rest] eqn:Hlogs; [done|].
    apply Forall_cons in Hfind as [Hf _]. cbn [mbind option_bind JS.truthy_opt]. done.
Qed.

End PageCoverage.

Module LoaderCoverage.
Import HistoryLoader.

(** X24. The history loader of the sidebar: whatever runs of the effect
    and answers came before, a request that is still live is the one
    sent last, and the answer to any other request changes nothing of
    what the sidebar shows (records, spinner, error). *)
Theorem only_the_last_history_request_counts (events : list Event) :
  let st := run initial events in
  (∀ q, q ∈ requests st → cancelled q = false → last (requests st) = Some q)
  ∧ (∀ n q outcome, requests st !! n = Some q → last (requests st) ≠ Some q →
       shown (step st (Answered n outcome)) = shown st).
Proof.
  intros st.
  pose proof (LoaderFacts.well_formed_run initial events LoaderFacts.well_formed_initial) as Hwf.
  fold st in Hwf. split.
  - intros q. by apply LoaderFacts.live_is_last.
  - intros n q outcome Hn Hlast. apply (LoaderFacts.cancelled_answer_is_dropped st n q); [done|].
    destruct (cancelled q) eqn:Hc; [done|]. destruct Hlast.
    apply LoaderFacts.live_is_last; [done| |done]. by eapply list_elem_of_lookup_2.
Qed.

End LoaderCoverage.

Module DialogCoverage.
Import Mongo Settings Models.

(** X25. Saving the fields of the settings dialog and loading them again
    gives the fields back, whatever the dialog held before, except that a
    falsy field comes back as the loader's fallback; when the fields are
    strings and the two models and the URL are not empty, the fields are
    as they were saved. *)
Theorem settings_round_trip (f g : Fields) :
  load (Some (save f)) g = reloaded f
  ∧ (texts f →
     truthy (Some (openaiModel f)) = true →
     truthy (Some (lmstudioUrl f)) = true →
     truthy (Some (copilotModel f)) = true →
     load (Some (save f)) g = f).
Proof.
  split; [apply SettingsFacts.load_save|].
  intros (k & m & u & lm & t & cm & uri & db & si & Hf) Hm Hu Hcm.
  rewrite SettingsFacts.load_save. rewrite Hf in *. unfold reloaded. simpl in *.
  rewrite !SettingsFacts.or_value_text. rewrite Hm, Hu, Hcm.
  by rewrite !SettingsFacts.truthy_or_empty.
Qed.

(** X25 for the initial values of the dialog. *)
Lemma default_settings_round_trip : load (Some (save defaults)) defaults = defaults.
Proof.
  apply (proj2 (settings_round_trip defaults defaults)).
  - by repeat eexists.
  - reflexivity.
  - reflexivity.
  - reflexivity.
Defined.

(** X26. The lists of models: the identifiers of a good answer are shown
    in ascending order (for OpenAI, those that contain "gpt"); a model
    that is set is never replaced, and with none set the least
    identifier of the list is selected. *)
Theorem model_lists_are_sorted_and_keep_the_choice (data : list string) (current : string) :
  let lm := lmModels_answer data current in
  let oai := openaiModels_answer data current in
  let gpt := List.filter (SearchSpec.contains "gpt") data in
  lm.1 ≡ₚ data ∧ StronglySorted (λ a b, (a ≤ b)%string) lm.1
  ∧ oai.1 ≡ₚ gpt ∧ StronglySorted (λ a b, (a ≤ b)%string) oai.1
  ∧ (if JS.truthy current then lm.2 = current ∧ oai.2 = current
     else match data with
          | [] => lm.2 = current
          | _ :: _ => lm.2 ∈ data ∧ Forall (λ id, (lm.2 ≤ id)%string) data
          end
          ∧ match gpt with
            | [] => oai.2 = current
            | _ :: _ => oai.2 ∈ gpt ∧ Forall (λ id, (oai.2 ≤ id)%string) gpt
            end).
Proof.
  intros lm oai gpt. subst lm oai. unfold lmModels_answer, openaiModels_answer. cbn [fst snd].
  fold gpt.
  pose proof (SettingsFacts.autoSelect_spec data current) as H1.
  pose proof (SettingsFacts.autoSelect_spec gpt current) as H2.
  cbn zeta in H1, H2.
  split_and!; try apply SettingsFacts.sort_Permutation; try apply SettingsFacts.sort_sorted.
  by destruct (JS.truthy current).
Qed.

(** X27. The URL of LM Studio is cleaned of the slashes at its end and
    of nothing else: the trimmed URL is the cleaned one followed by
    slashes, and the cleaned one does not end in a slash. The models
    route asks the upstream server for the cleaned URL followed by
    [/v1/models], and asks nothing when [url] is not a non-empty
    string. *)
Theorem models_url_is_cleaned (upstream : string → Upstream) (url : string) :
  (∃ n, JS.trim url = cleanUrl url +:+ slashes n)
  ∧ (∀ s, cleanUrl url ≠ s +:+ "/")
  ∧ (POST_models upstream (Some (JString url))).2
    = (if JS.truthy url then Some (cleanUrl url +:+ "/v1/models") else None)
  ∧ (JS.truthy url = false → POST_models upstream (Some (JString url)) = (400, None)).
Proof.
  destruct (UrlFacts.cleanUrl_spec url) as [H1 H2]. split_and!; [done|done| |].
  - unfold POST_models. destruct (JS.truthy url); [|done]. cbn [negb].
    destruct (upstream _) as [message|status body]; [done|].
    by destruct (ok status), body.
  - unfold POST_models. by intros ->.
Qed.

(** X28. What the dialog saves decides whether the page opens it again
    on the next visit: it does unless the OpenAI key, the LM Studio model
    or the connection string of the database is set. A Copilot token
    does not count. With nothing saved the dialog opens. *)
Theorem saved_settings_decide_the_first_visit (f : Fields) :
  opensOnFirstVisit (Some (save f))
  = negb (truthy (Some (openaiApiKey f)) || truthy (Some (lmstudioModel f))
          || truthy (Some (mongoUri f)))
  ∧ opensOnFirstVisit None = true.
Proof.
  split; [|done]. destruct f as [p k m u lm t cm uri db si].
  cbv -[truthy]. destruct (truthy (Some k)) eqn:Ek; cbv -[truthy]; rewrite ?Ek;
    by destruct (truthy (Some lm)), (truthy (Some uri)).
Qed.

End DialogCoverage.
